(** * lnd-grpc: closest rpc.proto version resolution

    A shallow embedding of [getClosestProtoVersion] and [closestLower]
    (src/index.js, the revision with the build numbers: lines 185 to 265)
    together with the part of the [semver] package (5.x, from 5.6.0) and of
    the JavaScript string and number primitives that they call. The list of
    versions that [getProtoVersions] reads from the directory is an argument.

    Conventions of the model.
    - A JavaScript string is a Rocq [string]; a character stands for the
      UTF-16 code unit of the same number, so the model covers the strings
      whose code units are below 256.
    - A JavaScript number that holds an integer is its value in [Z] (or [N]);
      [round53] is the rounding to the nearest double (ties to even) that the
      conversion of a long digit string performs.
    - A call whose result depends on a part of JavaScript or of [semver] that
      is not modelled (the range grammar on a text that is not a version, the
      numeric value of a build suffix that is not a digit string, the text of
      a number from 2^53 on) yields [Unmodelled]. In [WithRange] the range
      grammar is a parameter instead. *)

From Stdlib Require Import Bool List Ascii String NArith ZArith Lia.
From Stdlib Require Import DecimalString DecimalN DecimalFacts Permutation.
Import ListNotations.
Local Open Scope string_scope.

(** ** JavaScript string primitives *)

Module JS.

Definition code (c : ascii) : N := N_of_ascii c.

Fixpoint str_all (P : ascii -> bool) (s : string) : bool :=
  match s with
  | EmptyString => true
  | String c r => P c && str_all P r
  end.

Definition is_digit (c : ascii) : bool :=
  ((48 <=? code c) && (code c <=? 57))%N.

(** [s.split(sep)] for a separator of one character: never empty. *)
Fixpoint split (sep : ascii) (s : string) : list string :=
  match s with
  | EmptyString => [EmptyString]
  | String c r =>
      if Ascii.eqb c sep then EmptyString :: split sep r
      else match split sep r with
           | h :: t => String c h :: t
           | [] => [String c EmptyString]
           end
  end.

(** [l.join(sep)] on an array of strings. *)
Definition join (sep : string) (l : list string) : string := String.concat sep l.

(** [s.startsWith(p)]. *)
Definition startsWith (s p : string) : bool := String.prefix p s.

Fixpoint skip (n : nat) (s : string) : string :=
  match n, s with
  | O, _ => s
  | S k, String _ r => skip k r
  | S _, EmptyString => EmptyString
  end.

(** [s.replace(pat, '')] with a string pattern: the first occurrence goes. *)
Fixpoint remove_first (pat s : string) : string :=
  if String.prefix pat s then skip (String.length pat) s
  else match s with
       | EmptyString => EmptyString
       | String c r => String c (remove_first pat r)
       end.

(** White space and line terminators among the code units below 256. *)
Definition is_space (c : ascii) : bool :=
  let n := code c in
  ((9 <=? n) && (n <=? 13) || (n =? 32) || (n =? 160))%N.

Fixpoint trimStart (s : string) : string :=
  match s with
  | EmptyString => EmptyString
  | String c r => if is_space c then trimStart r else s
  end.

Fixpoint trimEnd (s : string) : string :=
  match s with
  | EmptyString => EmptyString
  | String c r =>
      match trimEnd r with
      | EmptyString => if is_space c then EmptyString else String c EmptyString
      | r' => String c r'
      end
  end.

Definition trim (s : string) : string := trimEnd (trimStart s).

(** The value of a string of decimal digits, and the decimal text of a
    natural number. *)
Definition digits_value (s : string) : N :=
  match NilEmpty.uint_of_string s with
  | Some d => N.of_uint d
  | None => 0%N
  end.

Definition decimal (n : N) : string := NilEmpty.string_of_uint (N.to_uint n).

(** Rounding of a natural number to the nearest double, ties to even. The
    digit strings met here have at most 256 digits: no overflow. *)
Definition round53 (n : N) : N :=
  if (n <? 2 ^ 53)%N then n
  else
    let e := (N.log2 n - 52)%N in
    let q := N.shiftr n e in
    let r := (n - N.shiftl q e)%N in
    let half := N.shiftl 1 (e - 1) in
    let q' := if (r <? half)%N then q
              else if (half <? r)%N then (q + 1)%N
              else if N.even q then q else (q + 1)%N in
    N.shiftl q' e.

(** A JavaScript number, as far as this program meets them. *)
Inductive number : Type :=
  | NaN
  | Num (z : Z).

(** [Number(s)] on a non-empty string of decimal digits. *)
Definition Number_digits (s : string) : number :=
  Num (Z.of_N (round53 (digits_value s))).

(** [String(x)] for a natural number below 2^53, where the shortest digits
    that give the double back are all its digits. From 2^53 on the text is
    the shortest such digits padded with zeros, or in exponent notation:
    not modelled. *)
Definition Number_toString (z : Z) : option string :=
  if (0 <=? z)%Z && (z <? 2 ^ 53)%Z then Some (decimal (Z.to_N z)) else None.

End JS.

(** ** Results of a call *)

(** What the code throws: a [TypeError] of the runtime (a property read on
    [undefined] or [null], a call of something that is not a function), or
    the [Error] raised at line 198 with the version string in its message. *)
Inductive exn : Type :=
  | TypeError
  | CouldNotGetVersion (versionString : string).

Inductive outcome (A : Type) : Type :=
  | Returned (a : A)
  | Thrown (e : exn)
  | Unmodelled.

Arguments Returned {A} a.
Arguments Thrown {A} e.
Arguments Unmodelled {A}.

Definition bind {A B : Type} (m : outcome A) (k : A -> outcome B) : outcome B :=
  match m with
  | Returned a => k a
  | Thrown e => Thrown e
  | Unmodelled => Unmodelled
  end.

Notation "x <- m ;; k" := (bind m (fun x => k))
  (at level 61, m at next level, right associativity).

(** ** The semver package, as far as index.js calls it *)

Module Semver.
Import JS.

Definition MAX_LENGTH : nat := 256.
Definition MAX_SAFE_INTEGER : N := 9007199254740991.

(** An entry of [prerelease]: the constructor turns a numeric identifier
    below [MAX_SAFE_INTEGER] into a number and keeps the others as text. *)
Inductive ident : Type :=
  | IdNum (n : N)
  | IdStr (s : string).

(** An entry of [build]: text from the parser, a number once
    [getClosestProtoVersion] stores one. *)
Inductive bident : Type :=
  | BStr (s : string)
  | BNum (x : number).

Record SemVer : Type := mkSemVer {
  major : N;
  minor : N;
  patch : N;
  prerelease : list ident;
  build : list bident
}.

(** [[0-9A-Za-z-]] *)
Definition is_idchar (c : ascii) : bool :=
  let n := code c in
  (is_digit c || (65 <=? n) && (n <=? 90) || (97 <=? n) && (n <=? 122)
   || (n =? 45))%N.

Definition nonempty (s : string) : bool :=
  match s with
  | EmptyString => false
  | String _ _ => true
  end.

(** [/^[0-9]+$/] *)
Definition numeric (s : string) : bool := nonempty s && str_all is_digit s.

(** NUMERICIDENTIFIER: [0|[1-9]\d*] *)
Definition numeric_id (s : string) : bool :=
  numeric s &&
  match s with
  | String "0" (String _ _) => false
  | _ => true
  end.

(** PRERELEASEIDENTIFIER: a numeric identifier, or
    [\d*[a-zA-Z-][a-zA-Z0-9-]*]. *)
Definition prerelease_id (s : string) : bool :=
  numeric_id s || nonempty s && str_all is_idchar s && negb (str_all is_digit s).

(** BUILDIDENTIFIER: [[0-9A-Za-z-]+] *)
Definition build_id (s : string) : bool := nonempty s && str_all is_idchar s.

(** The text before the first [sep], and the text after it if there is one. *)
Fixpoint cut (sep : ascii) (s : string) : string * option string :=
  match s with
  | EmptyString => (EmptyString, None)
  | String c r =>
      if Ascii.eqb c sep then (EmptyString, Some r)
      else let (a, b) := cut sep r in (String c a, b)
  end.

Definition ids_of (ok : string -> bool) (part : option string) : option (list string) :=
  match part with
  | None => Some []
  | Some p => let l := split "." p in if forallb ok l then Some l else None
  end.

Definition mk_ident (id : string) : ident :=
  if numeric id && (digits_value id <? MAX_SAFE_INTEGER)%N
  then IdNum (digits_value id) else IdStr id.

(** The optional [v] in front of a version. *)
Definition strip_v (version : string) : string :=
  match version with
  | String "v" r => r
  | _ => version
  end.

(** [semver.parse(version)] without options: the text has to match the FULL
    pattern (an optional v, three numeric identifiers between dots, then
    optionally a dash and prerelease identifiers between dots, then optionally
    a plus and build identifiers between dots), and the constructor
    refuses a main number above [MAX_SAFE_INTEGER]. [None] is [null]. *)
Definition parse (version : string) : option SemVer :=
  if (MAX_LENGTH <? String.length version)%nat then None
  else
    let (main, bld) := cut "+" (strip_v version) in
    let (core, pre) := cut "-" main in
    match split "." core, ids_of prerelease_id pre, ids_of build_id bld with
    | [M; m; p], Some pres, Some blds =>
        if numeric_id M && numeric_id m && numeric_id p
           && (digits_value M <=? MAX_SAFE_INTEGER)%N
           && (digits_value m <=? MAX_SAFE_INTEGER)%N
           && (digits_value p <=? MAX_SAFE_INTEGER)%N
        then Some (mkSemVer (digits_value M) (digits_value m) (digits_value p)
                            (map mk_ident pres) (map BStr blds))
        else None
    | _, _, _ => None
    end.

Definition ident_text (i : ident) : string :=
  match i with
  | IdNum n => decimal n
  | IdStr s => s
  end.

(** [SemVer.prototype.format]: the build is left out. *)
Definition format (v : SemVer) : string :=
  decimal (major v) ++ "." ++ decimal (minor v) ++ "." ++ decimal (patch v)
  ++ match prerelease v with
     | [] => ""
     | l => "-" ++ join "." (map ident_text l)
     end.

(** [compareIdentifiers(a, b)] *)
Definition is_numeric_ident (i : ident) : bool :=
  match i with
  | IdNum _ => true
  | IdStr s => numeric s
  end.

Definition ident_number (i : ident) : N :=
  match i with
  | IdNum n => n
  | IdStr s => round53 (digits_value s)
  end.

Definition compareIdentifiers (a b : ident) : comparison :=
  let anum := is_numeric_ident a in
  let bnum := is_numeric_ident b in
  if anum && bnum then N.compare (ident_number a) (ident_number b)
  else if String.eqb (ident_text a) (ident_text b) then Eq
  else if anum && negb bnum then Lt
  else if bnum && negb anum then Gt
  else if String.ltb (ident_text a) (ident_text b) then Lt
  else Gt.

Definition compareMain (a b : SemVer) : comparison :=
  match N.compare (major a) (major b) with
  | Eq => match N.compare (minor a) (minor b) with
          | Eq => N.compare (patch a) (patch b)
          | c => c
          end
  | c => c
  end.

(** [a === b] on two entries of [prerelease]. *)
Definition ident_same (a b : ident) : bool :=
  match a, b with
  | IdNum x, IdNum y => (x =? y)%N
  | IdStr x, IdStr y => String.eqb x y
  | _, _ => false
  end.

Fixpoint comparePreLoop (a b : list ident) : comparison :=
  match a, b with
  | [], [] => Eq
  | _ :: _, [] => Gt
  | [], _ :: _ => Lt
  | x :: a', y :: b' =>
      if ident_same x y then comparePreLoop a' b' else compareIdentifiers x y
  end.

Definition comparePre (a b : SemVer) : comparison :=
  match prerelease a, prerelease b with
  | _ :: _, [] => Lt
  | [], _ :: _ => Gt
  | [], [] => Eq
  | pa, pb => comparePreLoop pa pb
  end.

(** [a.compare(b)] *)
Definition compare (a b : SemVer) : comparison :=
  match compareMain a b with
  | Eq => comparePre a b
  | c => c
  end.

(** [lte(a, b)]: [compare(a, b) <= 0] *)
Definition lte (a b : SemVer) : bool :=
  match compare a b with
  | Gt => false
  | _ => true
  end.

(** [/^[=v]+/] removed. *)
Fixpoint strip_eqv (s : string) : string :=
  match s with
  | String c r =>
      if Ascii.eqb c "=" || Ascii.eqb c "v" then strip_eqv r else s
  | EmptyString => EmptyString
  end.

(** [semver.clean(version)] *)
Definition clean (version : string) : option string :=
  option_map format (parse (strip_eqv (trim version))).

(** [new Range('<= ' + version, {includePrerelease: true})]. When [version]
    is a version for [parse], the range is the one comparator [<=version]
    and, prereleases included, a version satisfies it when it is [lte].
    On another text the range grammar decides: not modelled. *)
Inductive range : Type :=
  | RangeLe (sv : SemVer)
  | RangeOther.

Definition Range_le (version : string) : range :=
  match parse version with
  | Some sv => RangeLe sv
  | None => RangeOther
  end.

(** The [forEach] of [maxSatisfying]: [max] and [maxSV] go together. An
    empty entry does not satisfy. An entry that is not a version does not
    reach this loop from index.js (line 230 formats every entry first), and
    the releases of the package differ on it: not modelled. *)
Fixpoint maxLoop (sv : SemVer) (versions : list string)
    (max : option (string * SemVer)) : outcome (option string) :=
  match versions with
  | [] => Returned (option_map fst max)
  | v :: rest =>
      if negb (nonempty v) then maxLoop sv rest max
      else match parse v with
           | None => Unmodelled
           | Some x =>
               if lte x sv then
                 match max with
                 | None => maxLoop sv rest (Some (v, x))
                 | Some (_, maxSV) =>
                     match compare maxSV x with
                     | Lt => maxLoop sv rest (Some (v, x))
                     | _ => maxLoop sv rest max
                     end
                 end
               else maxLoop sv rest max
           end
  end.

(** [semver.maxSatisfying(versions, '<= ' + version, {includePrerelease: true})].
    A range that does not parse is caught inside and gives [null]; so does
    an empty list, whatever the range. *)
Definition maxSatisfying_le (versions : list string) (version : string)
    : outcome (option string) :=
  match Range_le version with
  | RangeLe sv => maxLoop sv versions None
  | RangeOther =>
      match versions with
      | [] => Returned None
      | _ :: _ => Unmodelled
      end
  end.

End Semver.

(** ** src/index.js *)

Module Resolver.
Import JS Semver.

(** The variables [version] and [parse] as they stand at line 224, and what
    [console.warn] received, if the [try] block threw. *)
Record normalized : Type := mkNormalized {
  n_version : string;
  n_parse : option SemVer;
  n_warning : option exn
}.

(** [Number(prerelease)] at line 214, on an array of strings whose first
    entry passed [/^\d+$/]: the array is first joined with commas. *)
Definition Number_of_strings (l : list string) : number :=
  match l with
  | [] => Num 0
  | [s] => Number_digits s
  | _ :: _ :: _ => NaN
  end.

(** Lines 209 to 217, on the first prerelease entry when it is a string. *)
Definition retag (p : SemVer) (first : string) : SemVer :=
  let pre := filter (fun x => negb (String.eqb x "beta")) (split "-" first) in
  if numeric (hd "undefined" pre)
  then mkSemVer (major p) (minor p) (patch p) [] [BNum (Number_of_strings pre)]
  else mkSemVer (major p) (minor p) (patch p) (map IdStr pre) (build p).

(** Lines 187 to 224 of [getClosestProtoVersion]: the split of the version
    string and the [try] block, which assigns [version] and [parse] on its
    way and may throw at each step. *)
Definition normalize (versionString : string) : normalized :=
  let tokens := split " " versionString in
  let version := hd EmptyString tokens in
  match nth_error tokens 1 with
  | None => mkNormalized version None (Some TypeError)
  | Some commitString =>
      match clean (remove_first "commit=" commitString) with
      | None =>
          mkNormalized version None (Some (CouldNotGetVersion versionString))
      | Some fullversionsemver =>
          let version := join "-" (firstn 3 (split "-" fullversionsemver)) in
          match parse version with
          | None => mkNormalized version None (Some TypeError)
          | Some p =>
              match prerelease p with
              | IdStr first :: _ =>
                  let p' := retag p first in
                  mkNormalized (format p') (Some p') None
              | _ => mkNormalized version (Some p) (Some TypeError)
              end
          end
      end
  end.

(** [Number(s)] on a build suffix: modelled on digit strings. *)
Definition Number_of_string (s : string) : outcome number :=
  if numeric s then Returned (Number_digits s) else Unmodelled.

(** [Number(v.split('+')[1])] *)
Definition build_of (v : string) : outcome number :=
  match nth_error (split "+" v) 1 with
  | Some s => Number_of_string s
  | None => Returned NaN
  end.

Fixpoint builds_of (l : list string) : outcome (list number) :=
  match l with
  | [] => Returned []
  | v :: rest =>
      b <- build_of v ;;
      bs <- builds_of rest ;;
      Returned (b :: bs)
  end.

(** The number that the array [parse.build] stands for where line 258 and
    line 263 use it as a number. *)
Definition array_number (b : list bident) : outcome number :=
  match b with
  | [] => Returned (Num 0)
  | [BNum x] => Returned x
  | [BStr s] => if nonempty s then Number_of_string s else Returned (Num 0)
  | _ :: _ :: _ => Returned NaN
  end.

(** [v <= val] and [Math.abs(curr - val) < Math.abs(prev - val)] *)
Definition num_le (v val : number) : bool :=
  match v, val with
  | Num a, Num b => (a <=? b)%Z
  | _, _ => false
  end.

Definition abs_diff (x val : number) : number :=
  match x, val with
  | Num a, Num b => Num (Z.of_N (round53 (Z.to_N (Z.abs (a - b)))))
  | _, _ => NaN
  end.

Definition num_lt (x y : number) : bool :=
  match x, y with
  | Num a, Num b => (a <? b)%Z
  | _, _ => false
  end.

(** [closestLower(arr, val)]; [None] is [null]. *)
Definition closestLower (arr : list number) (val : number) : option number :=
  let filteredArr := filter (fun v => num_le v val) arr in
  match filteredArr with
  | [] => None
  | first :: rest =>
      Some (fold_left
              (fun prev curr =>
                 if num_lt (abs_diff curr val) (abs_diff prev val)
                 then curr else prev)
              rest first)
  end.

(** [closestMatch > 0], [null] and [NaN] included. *)
Definition positive_match (closestMatch : option number) : option Z :=
  match closestMatch with
  | Some (Num z) => if (0 <? z)%Z then Some z else None
  | _ => None
  end.

(** Line 230: [versions.map(v => semver.parse(v).format())]; a [null] from
    [parse] has no [format]. *)
Fixpoint filteredVersions (versions : list string) : outcome (list string) :=
  match versions with
  | [] => Returned []
  | v :: rest =>
      match parse v with
      | None => Thrown TypeError
      | Some p => fs <- filteredVersions rest ;; Returned (format p :: fs)
      end
  end.

(** Lines 238 to 247: the build refinement of [match]. An empty list of
    builds gives [null] before [val] is read as a number. *)
Definition refine (version : string) (p : option SemVer)
    (versions : list string) (match_ : option string) : outcome (option string) :=
  match p with
  | Some p =>
      match build p with
      | [] => Returned match_
      | _ :: _ =>
          let matchVersions :=
            filter (fun v => startsWith v (version ++ "+")) versions in
          builds <- builds_of matchVersions ;;
          closestMatch <- match builds with
                          | [] => Returned None
                          | _ :: _ =>
                              val <- array_number (build p) ;;
                              Returned (closestLower builds val)
                          end ;;
          match positive_match closestMatch with
          | Some z =>
              match Number_toString z with
              | Some text => Returned (Some (version ++ "+" ++ text))
              | None => Unmodelled
              end
          | None => Returned match_
          end
      end
  | None => Returned match_
  end.

(** Lines 226 to 251, from the normalized [version] and [parse] and the
    list that [getProtoVersions] gave. *)
Definition select (st : normalized) (versions : list string)
    : outcome (option string) :=
  filtered <- filteredVersions versions ;;
  match_ <- maxSatisfying_le filtered (n_version st) ;;
  refine (n_version st) (n_parse st) versions match_.

(** [getClosestProtoVersion(versionString, basepath)], where [versions] is
    what [getProtoVersions(basepath)] resolves to. *)
Definition getClosestProtoVersion (versionString : string)
    (versions : list string) : outcome (option string) :=
  select (normalize versionString) versions.

End Resolver.

(** ** Notions used in the statements *)

Module Notions.
Import JS Semver Resolver.

(** The characters other than [c]. *)
Definition other_than (c : ascii) (x : ascii) : bool := negb (Ascii.eqb x c).

(** The text of a result before its build suffix. *)
Definition semver_portion (m : string) : string := fst (cut "+" m).

(** Step A alone: lines 226 to 236. *)
Definition stepA (st : normalized) (versions : list string)
    : outcome (option string) :=
  filtered <- filteredVersions versions ;;
  maxSatisfying_le filtered (n_version st).

(** The catalog entries that [semver.parse] accepts. *)
Definition is_version (v : string) : bool :=
  match parse v with
  | Some _ => true
  | None => false
  end.

(** No build number is recorded in [parse]. *)
Definition no_build (p : option SemVer) : Prop :=
  match p with
  | None => True
  | Some p => build p = []
  end.

(** The version that lines 202 to 205 cut out of the cleaned commit token. *)
Definition truncated (fullversionsemver : string) : string :=
  join "-" (firstn 3 (split "-" fullversionsemver)).

(** The candidates that line 240 keeps. *)
Definition matchVersions (version : string) (versions : list string) : list string :=
  filter (fun v => startsWith v (version ++ "+")) versions.

(** A commit hash: hexadecimal digits, at least one. *)
Definition is_hex (c : ascii) : bool :=
  let n := code c in
  (is_digit c || (65 <=? n) && (n <=? 70) || (97 <=? n) && (n <=? 102))%N.

Definition is_hash (s : string) : bool := nonempty s && str_all is_hex s.

(** The characters of a version: identifier characters, dots and the plus. *)
Definition is_verchar (c : ascii) : bool :=
  is_idchar c || Ascii.eqb c "." || Ascii.eqb c "+".

(** The integers that a double holds exactly and that subtract exactly. *)
Definition safe (z : Z) : Prop := (0 <= z < 9007199254740992)%Z.

End Notions.

(** ** The rest of src/index.js *)

(** [getLatestProtoVersion], with the list that [getProtoVersions] gave. *)
Module Latest.
Import JS Semver.

Definition GRPC_LOWEST_VERSION : string := "0.4.2".
Definition GRPC_HIGHEST_VERSION : string := "0.5.2-rc3".

(** [gt(a, b)]: [compare(a, b) > 0] *)
Definition gt (a b : SemVer) : bool :=
  match compare a b with
  | Gt => true
  | _ => false
  end.

(** The [forEach] of [maxSatisfying] for any one comparator, [test] being
    what the comparator accepts. The entries are the ones of the directory;
    an entry that is not a version is not modelled. *)
Fixpoint maxLoopBy (test : SemVer -> bool) (versions : list string)
    (max : option (string * SemVer)) : outcome (option string) :=
  match versions with
  | [] => Returned (option_map fst max)
  | v :: rest =>
      if negb (nonempty v) then maxLoopBy test rest max
      else match parse v with
           | None => Unmodelled
           | Some x =>
               if test x then
                 match max with
                 | None => maxLoopBy test rest (Some (v, x))
                 | Some (_, maxSV) =>
                     match compare maxSV x with
                     | Lt => maxLoopBy test rest (Some (v, x))
                     | _ => maxLoopBy test rest max
                     end
                 end
               else maxLoopBy test rest max
           end
  end.

(** [semver.maxSatisfying(versions, '> ' + version, {includePrerelease: true})]:
    when [version] is a version the range is the one comparator [>version]. *)
Definition maxSatisfying_gt (versions : list string) (version : string)
    : outcome (option string) :=
  match parse version with
  | Some sv => maxLoopBy (fun x => gt x sv) versions None
  | None =>
      match versions with
      | [] => Returned None
      | _ :: _ => Unmodelled
      end
  end.

(** [getLatestProtoVersion(basepath)] *)
Definition getLatestProtoVersion (versions : list string) : outcome (option string) :=
  maxSatisfying_gt versions GRPC_LOWEST_VERSION.

End Latest.

(** The earlier revision of [getClosestProtoVersion] (lines 73 to 107),
    which keeps the [beta] marker and passes the list of the directory to
    [maxSatisfying] as it is. *)
Module Earlier.
Import JS Semver.

Definition GRPC_LOWEST_VERSION : string := "0.5.1-beta".
Definition GRPC_HIGHEST_VERSION : string := "0.5.2-beta.rc3".

(** [s.replace('-', '.')]: the first dash becomes a dot. *)
Definition replace_dash (s : string) : string :=
  match cut "-" s with
  | (a, Some b) => a ++ "." ++ b
  | (a, None) => a
  end.

(** Lines 75 to 94: [version] at line 94 and what [console.warn] received. *)
Definition normalize (versionString : string) : string * option exn :=
  let tokens := split " " versionString in
  let version := hd EmptyString tokens in
  match nth_error tokens 1 with
  | None => (version, Some TypeError)
  | Some commitString =>
      match clean (remove_first "commit=" commitString) with
      | None => (version, Some TypeError)
      | Some fullversionsemver =>
          let version := join "-" (firstn 3 (split "-" fullversionsemver)) in
          match parse version with
          | None => (version, Some TypeError)
          | Some p =>
              match prerelease p with
              | IdStr first :: rest =>
                  (format (mkSemVer (major p) (minor p) (patch p)
                             (IdStr (replace_dash first) :: rest) (build p)),
                   None)
              | _ => (version, Some TypeError)
              end
          end
      end
  end.

(** [getClosestProtoVersion(versionString)] of that revision. *)
Definition getClosestProtoVersion (versionString : string)
    (versions : list string) : outcome (option string) :=
  maxSatisfying_le versions (fst (normalize versionString)).

(** [getLatestProtoVersion()] of that revision. *)
Definition getLatestProtoVersion (versions : list string) : outcome (option string) :=
  Latest.maxSatisfying_gt versions GRPC_LOWEST_VERSION.

End Earlier.

(** [getClosestProtoVersion] with the range grammar as a parameter. *)
Module WithRange.
Import JS Semver Resolver Latest.

(** What [new Range('<= ' + version, {includePrerelease: true})] is on a text
    that is not a version: [None] when the constructor throws, which
    [maxSatisfying] catches to return [null]; otherwise what the range
    accepts, which [Range.prototype.test] decides from the parsed version.
    The grammar (x-ranges, carets, tildes, hyphens, unions) is not modelled:
    [other] stands for it, and what is proved holds for every [other]. *)
Definition range_oracle : Type := string -> option (SemVer -> bool).

Definition maxSatisfying_le (other : range_oracle) (versions : list string)
    (version : string) : outcome (option string) :=
  match parse version with
  | Some sv => maxLoop sv versions None
  | None =>
      match other ("<= " ++ version) with
      | Some test => maxLoopBy test versions None
      | None => Returned None
      end
  end.

(** Lines 226 to 236. *)
Definition stepA (other : range_oracle) (st : normalized)
    (versions : list string) : outcome (option string) :=
  filtered <- filteredVersions versions ;;
  maxSatisfying_le other filtered (n_version st).

(** Lines 226 to 251. *)
Definition select (other : range_oracle) (st : normalized)
    (versions : list string) : outcome (option string) :=
  filtered <- filteredVersions versions ;;
  match_ <- maxSatisfying_le other filtered (n_version st) ;;
  refine (n_version st) (n_parse st) versions match_.

Definition getClosestProtoVersion (other : range_oracle)
    (versionString : string) (versions : list string) : outcome (option string) :=
  select other (normalize versionString) versions.

(** The build suffixes that are digit strings with a value below 2^53. *)
Definition small_builds (versions : list string) : bool :=
  forallb (fun v => match nth_error (split "+" v) 1 with
                    | Some s => numeric s && (digits_value s <? 9007199254740992)%N
                    | None => true
                    end) versions.

End WithRange.

(** ** Semver precedence, stated apart from the code *)

Module Precedence.
Import JS Semver.

(** A version whose prerelease has no entry of digits kept as text (the
    constructor keeps one as text only from [MAX_SAFE_INTEGER] on, where
    the comparison goes through doubles). *)
Definition plain_ident (i : ident) : bool :=
  match i with
  | IdNum _ => true
  | IdStr s => negb (numeric s)
  end.

Definition plain (x : SemVer) : bool := forallb plain_ident (prerelease x).

(** Numbers before text, numbers by value, text by code units. *)
Definition ident_order (a b : ident) : comparison :=
  match a, b with
  | IdNum n, IdNum m => N.compare n m
  | IdNum _, IdStr _ => Lt
  | IdStr _, IdNum _ => Gt
  | IdStr s, IdStr t => String.compare s t
  end.

Fixpoint lex {A : Type} (f : A -> A -> comparison) (a b : list A) : comparison :=
  match a, b with
  | [], [] => Eq
  | [], _ :: _ => Lt
  | _ :: _, [] => Gt
  | x :: a', y :: b' =>
      match f x y with
      | Eq => lex f a' b'
      | c => c
      end
  end.

(** A release is above its prereleases. *)
Definition pre_order (a b : list ident) : comparison :=
  match a, b with
  | [], [] => Eq
  | [], _ :: _ => Gt
  | _ :: _, [] => Lt
  | _, _ => lex ident_order a b
  end.

(** What precedence reads of a version. *)
Definition key (x : SemVer) : list N * list ident :=
  ([major x; minor x; patch x], prerelease x).

Definition key_order (a b : list N * list ident) : comparison :=
  match lex N.compare (fst a) (fst b) with
  | Eq => pre_order (snd a) (snd b)
  | c => c
  end.

(** A comparison that decides a strict total order. *)
Definition cmp_ok {A : Type} (f : A -> A -> comparison) : Prop :=
  (forall x y, f x y = Eq <-> x = y)
  /\ (forall x y, f x y = CompOpp (f y x))
  /\ (forall x y z, f x y = Lt -> f y z = Lt -> f x z = Lt).

(** Not above, for a comparison. *)
Definition le_by {A : Type} (f : A -> A -> comparison) (x y : A) : bool :=
  match f x y with
  | Gt => false
  | _ => true
  end.

(** A catalog entry without its optional [v] and without its build. *)
Definition stripped (c : string) : string := fst (cut "+" (strip_v c)).

(** A catalog entry that is a plain version. *)
Definition is_plain_version (v : string) : bool :=
  match parse v with
  | Some x => plain x
  | None => false
  end.

(** Standard precedence on any version: an identifier of digits is a
    number whatever its size, and numbers compare by value. *)
Definition ident_value (i : ident) : option N :=
  match i with
  | IdNum n => Some n
  | IdStr s => if numeric s then Some (digits_value s) else None
  end.

Definition std_ident_order (a b : ident) : comparison :=
  match ident_value a, ident_value b with
  | Some n, Some m => N.compare n m
  | Some _, None => Lt
  | None, Some _ => Gt
  | None, None => String.compare (ident_text a) (ident_text b)
  end.

Definition std_pre_order (a b : list ident) : comparison :=
  match a, b with
  | [], [] => Eq
  | [], _ :: _ => Gt
  | _ :: _, [] => Lt
  | _, _ => lex std_ident_order a b
  end.

Definition precedence (a b : SemVer) : comparison :=
  match lex N.compare [major a; minor a; patch a] [major b; minor b; patch b] with
  | Eq => std_pre_order (prerelease a) (prerelease b)
  | c => c
  end.

Definition not_above (a b : SemVer) : bool :=
  match precedence a b with
  | Gt => false
  | _ => true
  end.

(** The prerelease entries that the constructor makes: a number is below
    [MAX_SAFE_INTEGER], digits kept as text are not. *)
Definition made_ident (i : ident) : bool :=
  match i with
  | IdNum n => (n <? MAX_SAFE_INTEGER)%N
  | IdStr s => negb (numeric s) || (MAX_SAFE_INTEGER <=? digits_value s)%N
  end.

Definition made (x : SemVer) : bool := forallb made_ident (prerelease x).

End Precedence.

(** ** Strings: characters, [split], [join] and [cut] *)

Import JS Semver Resolver Notions.

Lemma app_assoc_str (a b c : string) : (a ++ b) ++ c = a ++ b ++ c.
Proof. induction a as [|x a IH]; simpl; [reflexivity|now rewrite IH]. Qed.

Lemma app_nil_str (a : string) : a ++ "" = a.
Proof. induction a as [|x a IH]; simpl; [reflexivity|now rewrite IH]. Qed.

Lemma str_all_app (P : ascii -> bool) (a b : string) :
  str_all P (a ++ b) = str_all P a && str_all P b.
Proof.
  induction a as [|c a IH]; simpl; [reflexivity|].
  now rewrite IH, andb_assoc.
Qed.

Lemma str_all_impl (P Q : ascii -> bool) (s : string) :
  (forall c, P c = true -> Q c = true) ->
  str_all P s = true -> str_all Q s = true.
Proof.
  intros HPQ. induction s as [|c s IH]; simpl; [reflexivity|].
  intros H. apply andb_true_iff in H as [Hc Hs].
  apply andb_true_iff. split; auto.
Qed.

Lemma split_not_nil (sep : ascii) (s : string) : split sep s <> [].
Proof.
  induction s as [|c s IH]; simpl; [discriminate|].
  destruct (Ascii.eqb c sep); [discriminate|].
  destruct (split sep s); [contradiction|discriminate].
Qed.

Lemma split_no_sep (sep : ascii) (s : string) :
  str_all (other_than sep) s = true -> split sep s = [s].
Proof.
  induction s as [|c s IH]; simpl; [reflexivity|].
  unfold other_than at 1. intros H. apply andb_true_iff in H as [Hc Hs].
  apply negb_true_iff in Hc. rewrite Hc, (IH Hs). reflexivity.
Qed.

Lemma split_app_sep (sep : ascii) (a r : string) :
  str_all (other_than sep) a = true ->
  split sep (a ++ String sep r) = a :: split sep r.
Proof.
  induction a as [|c a IH]; simpl.
  - intros _. now rewrite Ascii.eqb_refl.
  - unfold other_than at 1. intros H. apply andb_true_iff in H as [Hc Ha].
    apply negb_true_iff in Hc. rewrite Hc, (IH Ha). reflexivity.
Qed.

Lemma join_split (sep : ascii) (s : string) :
  join (String sep "") (split sep s) = s.
Proof.
  unfold join. induction s as [|c s IH]; simpl; [reflexivity|].
  destruct (Ascii.eqb_spec c sep) as [->|Hne].
  - simpl. pose proof (split_not_nil sep s) as Hn.
    destruct (split sep s) as [|h t]; [contradiction|].
    simpl in *. now rewrite IH.
  - pose proof (split_not_nil sep s) as Hn.
    destruct (split sep s) as [|h t]; [contradiction|].
    destruct t as [|h' t]; simpl in *; now rewrite <- IH.
Qed.

Lemma split_pieces (P : ascii -> bool) (sep : ascii) (s : string) :
  str_all P s = true -> Forall (fun x => str_all P x = true) (split sep s).
Proof.
  induction s as [|c s IH]; simpl.
  - intros _. now constructor.
  - intros H. apply andb_true_iff in H as [Hc Hs]. specialize (IH Hs).
    destruct (Ascii.eqb c sep).
    + now constructor.
    + destruct (split sep s) as [|h t]; [now repeat constructor; simpl; rewrite Hc|].
      inversion IH; subst. constructor; [simpl; now rewrite Hc|assumption].
Qed.

Lemma split_pieces_no_sep (sep : ascii) (s : string) :
  Forall (fun x => str_all (other_than sep) x = true) (split sep s).
Proof.
  induction s as [|c s IH]; simpl.
  - now constructor.
  - destruct (Ascii.eqb c sep) eqn:E.
    + now constructor.
    + destruct (split sep s) as [|h t].
      * repeat constructor. simpl. unfold other_than. now rewrite E.
      * inversion IH; subst. constructor; [|assumption].
        simpl. unfold other_than at 1. now rewrite E.
Qed.

Lemma str_all_join (P : ascii -> bool) (sep : string) (l : list string) :
  str_all P sep = true ->
  Forall (fun x => str_all P x = true) l ->
  str_all P (join sep l) = true.
Proof.
  intros Hsep Hl. unfold join. induction Hl as [|x l Hx Hl IH]; [reflexivity|].
  destruct l as [|y l]; simpl; [assumption|].
  rewrite !str_all_app, Hx, Hsep. exact IH.
Qed.

Lemma cut_spec (sep : ascii) (s a : string) (b : option string) :
  cut sep s = (a, b) ->
  str_all (other_than sep) a = true /\
  s = match b with
      | None => a
      | Some r => a ++ String sep r
      end.
Proof.
  revert a b. induction s as [|c s IH]; simpl; intros a b H.
  - inversion H; subst. now split.
  - destruct (Ascii.eqb_spec c sep) as [->|Hne].
    + inversion H; subst. now split.
    + destruct (cut sep s) as [a' b'] eqn:E. inversion H; subst.
      destruct (IH a' b eq_refl) as [Ha Hs]. split.
      * simpl. unfold other_than at 1.
        apply Ascii.eqb_neq in Hne. now rewrite Hne.
      * destruct b; simpl; now f_equal.
Qed.

Lemma cut_no_sep (sep : ascii) (a : string) :
  str_all (other_than sep) a = true -> cut sep a = (a, None).
Proof.
  induction a as [|c a IH]; simpl; [reflexivity|].
  unfold other_than at 1. intros H. apply andb_true_iff in H as [Hc Ha].
  apply negb_true_iff in Hc. now rewrite Hc, (IH Ha).
Qed.

Lemma cut_app_sep (sep : ascii) (a r : string) :
  str_all (other_than sep) a = true ->
  cut sep (a ++ String sep r) = (a, Some r).
Proof.
  induction a as [|c a IH]; simpl.
  - intros _. now rewrite Ascii.eqb_refl.
  - unfold other_than at 1. intros H. apply andb_true_iff in H as [Hc Ha].
    apply negb_true_iff in Hc. now rewrite Hc, (IH Ha).
Qed.

Lemma cut_app (sep : ascii) (a r : string) :
  str_all (other_than sep) a = true ->
  cut sep (a ++ r) = (a ++ fst (cut sep r), snd (cut sep r)).
Proof.
  induction a as [|c a IH]; simpl.
  - intros _. now destruct (cut sep r).
  - unfold other_than at 1. intros H. apply andb_true_iff in H as [Hc Ha].
    apply negb_true_iff in Hc. now rewrite Hc, (IH Ha).
Qed.

(** ** The two examples of the specification, on the code *)

(** C4, as the code has it: the commit token [commit=abcdef-0.5.1-beta.rc2]
    starts with the hash, so [semver.clean] gives [null], line 198 throws,
    and the search runs from the first token [0.5.1-beta]. Both release
    candidates of 0.5.1 are above [0.5.1-beta]; the result is [0.5.0]. *)
Theorem example_rc2_resolves_to_0_5_0 :
  normalize "0.5.1-beta commit=abcdef-0.5.1-beta.rc2"
  = mkNormalized "0.5.1-beta" None
      (Some (CouldNotGetVersion "0.5.1-beta commit=abcdef-0.5.1-beta.rc2"))
  /\ getClosestProtoVersion "0.5.1-beta commit=abcdef-0.5.1-beta.rc2"
       ["0.5.0"; "0.5.1-beta.rc1"; "0.5.1-beta.rc2"; "0.5.2-beta.rc3"]
     = Returned (Some "0.5.0").
Proof. split; vm_compute; reflexivity. Qed.

(** C4 as stated fails: on its input the result is not [0.5.1-beta.rc2]. *)
Lemma example_rc2_not_rc2 :
  exists r,
    getClosestProtoVersion "0.5.1-beta commit=abcdef-0.5.1-beta.rc2"
      ["0.5.0"; "0.5.1-beta.rc1"; "0.5.1-beta.rc2"; "0.5.2-beta.rc3"]
    = Returned (Some r)
    /\ String.eqb r "0.5.1-beta.rc2" = false.
Proof. exists "0.5.0". split; vm_compute; reflexivity. Qed.

(** C5, as the code has it: the commit token [commit=abcdef-0.5.2-3] is not
    a version for [semver.clean] either, no build number is recorded
    ([parse] stays undefined) and the result is the primary match [0.5.2]. *)
Theorem example_build3_falls_back :
  normalize "0.5.2 commit=abcdef-0.5.2-3"
  = mkNormalized "0.5.2" None
      (Some (CouldNotGetVersion "0.5.2 commit=abcdef-0.5.2-3"))
  /\ getClosestProtoVersion "0.5.2 commit=abcdef-0.5.2-3"
       ["0.5.2"; "0.5.2+1"; "0.5.2+5"]
     = Returned (Some "0.5.2").
Proof. split; vm_compute; reflexivity. Qed.

(** C5 as stated fails: on its input normalization records no build number
    and the result is not [0.5.2+1]. *)
Lemma example_build3_not_refined :
  n_parse (normalize "0.5.2 commit=abcdef-0.5.2-3") = None
  /\ exists r,
       getClosestProtoVersion "0.5.2 commit=abcdef-0.5.2-3"
         ["0.5.2"; "0.5.2+1"; "0.5.2+5"]
       = Returned (Some r)
       /\ String.eqb r "0.5.2+1" = false.
Proof. split; [|exists "0.5.2"; split]; vm_compute; reflexivity. Qed.

(** The same catalogs with the commit token as lnd writes it, the version
    first and the hash last: the build number 3 is read and refines the
    match, and the [beta] marker is dropped from the prerelease. *)
Example example_build3_lnd_form :
  normalize "0.5.2-beta commit=v0.5.2-beta-3-gabcdef"
  = mkNormalized "0.5.2" (Some (mkSemVer 0 5 2 [] [BNum (Num 3)])) None
  /\ getClosestProtoVersion "0.5.2-beta commit=v0.5.2-beta-3-gabcdef"
       ["0.5.2"; "0.5.2+1"; "0.5.2+5"]
     = Returned (Some "0.5.2+1").
Proof. split; vm_compute; reflexivity. Qed.

Example example_rc2_lnd_form :
  n_version (normalize "0.5.1-beta commit=v0.5.1-beta-rc2-4-gabcdef") = "0.5.1-rc2"
  /\ getClosestProtoVersion "0.5.1-beta commit=v0.5.1-beta-rc2-4-gabcdef"
       ["0.5.0"; "0.5.1-beta.rc1"; "0.5.1-beta.rc2"; "0.5.2-beta.rc3"]
     = Returned (Some "0.5.1-beta.rc2").
Proof. split; vm_compute; reflexivity. Qed.

(** ** A catalog entry that is not a version *)

Lemma filteredVersions_malformed (versions : list string) :
  existsb (fun v => negb (is_version v)) versions = true ->
  filteredVersions versions = Thrown TypeError.
Proof.
  induction versions as [|v rest IH]; simpl; [discriminate|].
  unfold is_version at 1. destruct (parse v); simpl; [|reflexivity].
  intros H. now rewrite (IH H).
Qed.

(** C3, on the code: as soon as one entry of the catalog is not a version,
    line 230 reads [format] on the [null] that [semver.parse] returned and
    the call throws a [TypeError], whatever the version string. The claim
    (the entry is left out and the selection completes) does not hold. *)
Theorem malformed_entry_throws (versionString : string) (versions : list string) :
  existsb (fun v => negb (is_version v)) versions = true ->
  getClosestProtoVersion versionString versions = Thrown TypeError.
Proof.
  intros H. unfold getClosestProtoVersion, select.
  now rewrite (filteredVersions_malformed _ H).
Qed.

Lemma malformed_entry_throws_witness :
  getClosestProtoVersion "0.5.1-beta" ["0.5.0"; "README"] = Thrown TypeError.
Proof. apply (malformed_entry_throws "0.5.1-beta" ["0.5.0"; "README"]). vm_compute. reflexivity. Defined.

(** ** Empty catalog *)

Lemma maxSatisfying_le_nil (version : string) :
  maxSatisfying_le [] version = Returned None.
Proof. unfold maxSatisfying_le. now destruct (Range_le version). Qed.

Lemma refine_nil (version : string) (p : option SemVer) (match_ : option string) :
  refine version p [] match_ = Returned match_.
Proof.
  unfold refine. destruct p as [p|]; [|reflexivity].
  destruct (build p); reflexivity.
Qed.

(** C9: with an empty catalog the result is absent ([null]), for every
    version string. *)
Theorem empty_catalog_absent (versionString : string) :
  getClosestProtoVersion versionString [] = Returned None.
Proof.
  unfold getClosestProtoVersion, select. simpl.
  rewrite maxSatisfying_le_nil. simpl. apply refine_nil.
Qed.

(** ** What a parsed version looks like *)

Lemma ids_of_spec (ok : string -> bool) (part : option string) (l : list string) :
  ids_of ok part = Some l ->
  forallb ok l = true /\
  match part with
  | None => l = []
  | Some p => l = split "." p
  end.
Proof.
  unfold ids_of. destruct part as [p|].
  - destruct (forallb ok (split "." p)) eqn:E; [|discriminate].
    intros [= <-]. now split.
  - intros [= <-]. now split.
Qed.

Lemma parse_inv (version : string) (sv : SemVer) :
  parse version = Some sv ->
  exists main bld core pre M m p pres blds,
    (String.length version <= MAX_LENGTH)%nat
    /\ cut "+" (strip_v version) = (main, bld)
    /\ cut "-" main = (core, pre)
    /\ split "." core = [M; m; p]
    /\ ids_of prerelease_id pre = Some pres
    /\ ids_of build_id bld = Some blds
    /\ (numeric_id M = true /\ numeric_id m = true /\ numeric_id p = true)
    /\ ((digits_value M <= MAX_SAFE_INTEGER)%N
        /\ (digits_value m <= MAX_SAFE_INTEGER)%N
        /\ (digits_value p <= MAX_SAFE_INTEGER)%N)
    /\ sv = mkSemVer (digits_value M) (digits_value m) (digits_value p)
              (map mk_ident pres) (map BStr blds).
Proof.
  unfold parse.
  destruct (Nat.ltb_spec MAX_LENGTH (String.length version)) as [|Hlen];
    [discriminate|].
  destruct (cut "+" (strip_v version)) as [main bld] eqn:Ecut1.
  destruct (cut "-" main) as [core pre] eqn:Ecut2.
  destruct (split "." core) as [|M [|m [|p [|? ?]]]] eqn:Esplit; try discriminate.
  destruct (ids_of prerelease_id pre) as [pres|] eqn:Epre; [|discriminate].
  destruct (ids_of build_id bld) as [blds|] eqn:Ebld; [|discriminate].
  destruct (numeric_id M && numeric_id m && numeric_id p
            && (digits_value M <=? MAX_SAFE_INTEGER)%N
            && (digits_value m <=? MAX_SAFE_INTEGER)%N
            && (digits_value p <=? MAX_SAFE_INTEGER)%N) eqn:Eok; [|discriminate].
  intros [= <-].
  do 5 (apply andb_true_iff in Eok as [Eok ?]).
  exists main, bld, core, pre, M, m, p, pres, blds.
  repeat split; auto; now apply N.leb_le.
Qed.

Lemma digit_is_idchar (c : ascii) : is_digit c = true -> is_idchar c = true.
Proof. unfold is_idchar. intros ->. reflexivity. Qed.

Lemma idchar_is_verchar (c : ascii) : is_idchar c = true -> is_verchar c = true.
Proof. unfold is_verchar. intros ->. reflexivity. Qed.

Lemma numeric_id_digits (s : string) : numeric_id s = true -> str_all is_digit s = true.
Proof.
  unfold numeric_id, numeric. intros H.
  apply andb_true_iff in H as [H _]. now apply andb_true_iff in H as [_ H].
Qed.

Lemma prerelease_id_idchars (s : string) :
  prerelease_id s = true -> str_all is_idchar s = true.
Proof.
  unfold prerelease_id. intros H. apply orb_true_iff in H as [H|H].
  - apply (str_all_impl is_digit); [exact digit_is_idchar|].
    now apply numeric_id_digits.
  - apply andb_true_iff in H as [H _]. now apply andb_true_iff in H as [_ H].
Qed.

Lemma build_id_idchars (s : string) :
  build_id s = true -> str_all is_idchar s = true.
Proof. unfold build_id. intros H. now apply andb_true_iff in H as [_ H]. Qed.

Lemma forallb_Forall_chars (ok : string -> bool) (P : ascii -> bool) (l : list string) :
  (forall s, ok s = true -> str_all P s = true) ->
  forallb ok l = true -> Forall (fun x => str_all P x = true) l.
Proof.
  intros Hok H. apply Forall_forall. intros x Hx.
  apply Hok. rewrite forallb_forall in H. now apply H.
Qed.

(** The text of an optional dotted part, with the sign that introduces it. *)
Lemma ids_part_chars (ok : string -> bool) (part : option string) (l : list string) :
  (forall s, ok s = true -> str_all is_idchar s = true) ->
  ids_of ok part = Some l ->
  match part with
  | None => True
  | Some p => str_all is_verchar p = true
  end.
Proof.
  intros Hok H. destruct (ids_of_spec _ _ _ H) as [Hall Hl].
  destruct part as [p|]; [|exact I].
  rewrite <- (join_split "." p), <- Hl.
  apply str_all_join; [reflexivity|].
  apply (forallb_Forall_chars ok); [|assumption].
  intros s Hs. apply (str_all_impl is_idchar); [exact idchar_is_verchar|auto].
Qed.

Lemma strip_v_chars (P : ascii -> bool) (version : string) :
  P "v"%char = true -> str_all P (strip_v version) = true ->
  str_all P version = true.
Proof.
  intros Hv. destruct version as [|c r]; [reflexivity|].
  unfold strip_v.
  destruct (Ascii.eqb_spec c "v") as [->|Hne].
  - simpl. now rewrite Hv.
  - replace (match c with "v"%char => r | _ => String c r end) with (String c r);
      [auto|].
    destruct c as [[|] [|] [|] [|] [|] [|] [|] [|]]; try reflexivity.
    now elim Hne.
Qed.

Lemma parse_verchars (version : string) (sv : SemVer) :
  parse version = Some sv -> str_all is_verchar version = true.
Proof.
  intros H.
  destruct (parse_inv _ _ H)
    as (main & bld & core & pre & M & m & p & pres & blds
        & _ & Ec1 & Ec2 & Esp & Epre & Ebld & (HM & Hm & Hp) & _ & _).
  apply strip_v_chars; [reflexivity|].
  destruct (cut_spec _ _ _ _ Ec1) as [_ ->].
  destruct (cut_spec _ _ _ _ Ec2) as [_ ->].
  assert (Hcore : str_all is_verchar core = true).
  { rewrite <- (join_split "." core), Esp.
    apply str_all_join; [reflexivity|].
    repeat constructor;
      (apply (str_all_impl is_digit);
       [intros c Hc; now apply idchar_is_verchar, digit_is_idchar
       |now apply numeric_id_digits]). }
  pose proof (ids_part_chars _ _ _ prerelease_id_idchars Epre) as Hpre.
  pose proof (ids_part_chars _ _ _ build_id_idchars Ebld) as Hbld.
  destruct pre as [pre|], bld as [bld|];
    rewrite ?str_all_app; simpl; rewrite ?str_all_app; simpl;
    rewrite Hcore, ?Hpre, ?Hbld; reflexivity.
Qed.

Lemma verchar_not_space (c : ascii) :
  is_verchar c = true -> other_than " " c = true.
Proof.
  destruct c as [[|] [|] [|] [|] [|] [|] [|] [|]];
    vm_compute; intros H; first [reflexivity | discriminate H].
Qed.

Lemma parse_no_space (version : string) (sv : SemVer) :
  parse version = Some sv -> str_all (other_than " ") version = true.
Proof.
  intros H. apply (str_all_impl is_verchar); [exact verchar_not_space|].
  exact (parse_verchars _ _ H).
Qed.

(** ** Normalization without a commit token *)

Lemma normalize_no_space (v : string) :
  str_all (other_than " ") v = true ->
  normalize v = mkNormalized v None (Some TypeError).
Proof.
  intros H. unfold normalize. rewrite (split_no_sep _ _ H). reflexivity.
Qed.

(** C7: on a version string [v] that is a version for [semver.parse] and that
    comes alone (no commit token), normalization leaves [version] equal to
    [v] and records no build number: [parse] stays undefined. The code gets
    there through the [catch]: reading [replace] on the missing commit token
    throws, and the warning is logged. *)
Theorem normalize_canonical_no_commit (v : string) (sv : SemVer) :
  parse v = Some sv ->
  normalize v = mkNormalized v None (Some TypeError).
Proof.
  intros H. apply normalize_no_space. exact (parse_no_space _ _ H).
Qed.

Lemma normalize_canonical_no_commit_witness :
  normalize "0.5.1-beta.rc2" = mkNormalized "0.5.1-beta.rc2" None (Some TypeError).
Proof.
  apply (normalize_canonical_no_commit "0.5.1-beta.rc2"
           (mkSemVer 0 5 1 [IdStr "beta"; IdStr "rc2"] [])).
  vm_compute. reflexivity.
Defined.

(** ** Normalization when the commit token starts with the hash *)

Lemma split_hd_cut (sep : ascii) (s : string) :
  exists t, split sep s = fst (cut sep s) :: t.
Proof.
  induction s as [|c s [t IH]]; simpl; [now exists []|].
  destruct (Ascii.eqb c sep); [now eexists|].
  rewrite IH. destruct (cut sep s). simpl. now eexists.
Qed.

Lemma trimEnd_keeps (a r : string) (c : ascii) :
  is_space c = false ->
  exists r', trimEnd (a ++ String c r) = a ++ String c r'.
Proof.
  intros Hc. induction a as [|x a [r' IH]]; simpl.
  - rewrite Hc. destruct (trimEnd r); now eexists.
  - rewrite IH. exists r'. now destruct a.
Qed.

Lemma hex_facts (c : ascii) :
  is_hex c = true ->
  is_space c = false
  /\ Ascii.eqb c "=" || Ascii.eqb c "v" = false
  /\ other_than "+" c = true /\ other_than "-" c = true
  /\ other_than "." c = true /\ other_than " " c = true.
Proof.
  destruct c as [[|] [|] [|] [|] [|] [|] [|] [|]];
    vm_compute; intros H; first [discriminate H | repeat split].
Qed.

Lemma hash_chars (P : ascii -> bool) (hash : string) :
  (forall c, is_hex c = true -> P c = true) ->
  is_hash hash = true -> str_all P hash = true.
Proof.
  intros HP H. unfold is_hash in H. apply andb_true_iff in H as [_ H].
  now apply (str_all_impl is_hex).
Qed.

Lemma strip_v_not_v (c : ascii) (r : string) :
  Ascii.eqb c "v" = false -> strip_v (String c r) = String c r.
Proof.
  destruct c as [[|] [|] [|] [|] [|] [|] [|] [|]]; try reflexivity.
  vm_compute. discriminate.
Qed.

Lemma prefix_app (p x : string) : String.prefix p (p ++ x) = true.
Proof.
  induction p as [|c p IH]; simpl; [now destruct x|].
  destruct (ascii_dec c c) as [_|Hne]; [exact IH|now elim Hne].
Qed.

Lemma skip_app (p x : string) : skip (String.length p) (p ++ x) = x.
Proof. induction p as [|c p IH]; simpl; auto. Qed.

Lemma remove_first_prefix (p x : string) : remove_first p (p ++ x) = x.
Proof.
  assert (E : forall s, remove_first p s
                        = if String.prefix p s then skip (String.length p) s
                          else match s with
                               | EmptyString => EmptyString
                               | String c r => String c (remove_first p r)
                               end) by (intros s; now destruct s).
  now rewrite E, prefix_app, skip_app.
Qed.

(** A text that starts with a hash and a dash is not a version. *)
Lemma parse_hash_dash (hash rest : string) :
  is_hash hash = true -> parse (hash ++ String "-" rest) = None.
Proof.
  intros Hh. unfold parse.
  destruct (MAX_LENGTH <? String.length (hash ++ String "-" rest))%nat;
    [reflexivity|].
  assert (Hv : strip_v (hash ++ String "-" rest) = hash ++ String "-" rest).
  { unfold is_hash in Hh. apply andb_true_iff in Hh as [Hne Hall].
    destruct hash as [|c h]; [discriminate|]. simpl in Hall.
    apply andb_true_iff in Hall as [Hc _].
    destruct (hex_facts c Hc) as (_ & Hev & _).
    apply orb_false_iff in Hev as [_ Hv]. simpl. now apply strip_v_not_v. }
  rewrite Hv.
  rewrite (cut_app "+" hash);
    [|apply hash_chars; [intros c Hc; apply (hex_facts c Hc)|assumption]].
  simpl. destruct (cut "+" rest) as [a b]. simpl.
  rewrite (cut_app_sep "-" hash a);
    [|apply hash_chars; [intros c Hc; apply (hex_facts c Hc)|assumption]].
  rewrite (split_no_sep "." hash);
    [|apply hash_chars; [intros c Hc; apply (hex_facts c Hc)|assumption]].
  reflexivity.
Qed.

Lemma clean_hash_dash (hash rest : string) :
  is_hash hash = true -> clean (hash ++ String "-" rest) = None.
Proof.
  intros Hh. unfold clean, trim.
  assert (Hc : exists c h, hash = String c h /\ is_hex c = true).
  { unfold is_hash in Hh. apply andb_true_iff in Hh as [Hne Hall].
    destruct hash as [|c h]; [discriminate|]. simpl in Hall.
    apply andb_true_iff in Hall as [Hc _]. now exists c, h. }
  destruct Hc as (c & h & Eh & Hc).
  destruct (hex_facts c Hc) as (Hsp & Hev & _).
  assert (Ets : trimStart (hash ++ String "-" rest) = hash ++ String "-" rest).
  { rewrite Eh. simpl. now rewrite Hsp. }
  rewrite Ets.
  destruct (trimEnd_keeps hash rest "-" eq_refl) as [r' ->].
  assert (Ese : strip_eqv (hash ++ String "-" r') = hash ++ String "-" r').
  { rewrite Eh. simpl. now rewrite Hev. }
  rewrite Ese, (parse_hash_dash _ _ Hh). reflexivity.
Qed.

(** C8: on a version string made of a version, a space, [commit=], a hash
    of hexadecimal digits, a dash and any suffix, the commit token is not a
    version for [semver.clean] (it starts with the hash), line 198 throws,
    and [version] keeps the first token, which is a valid version. *)
Theorem normalize_hash_form_valid (semver hash suffix : string) (sv : SemVer) :
  parse semver = Some sv ->
  is_hash hash = true ->
  normalize (semver ++ " commit=" ++ hash ++ "-" ++ suffix)
  = mkNormalized semver None
      (Some (CouldNotGetVersion (semver ++ " commit=" ++ hash ++ "-" ++ suffix)))
  /\ parse (n_version (normalize (semver ++ " commit=" ++ hash ++ "-" ++ suffix)))
     = Some sv.
Proof.
  intros Hsv Hh.
  assert (Hn : normalize (semver ++ " commit=" ++ hash ++ "-" ++ suffix)
               = mkNormalized semver None
                   (Some (CouldNotGetVersion
                            (semver ++ " commit=" ++ hash ++ "-" ++ suffix)))).
  { unfold normalize.
    change (semver ++ " commit=" ++ hash ++ "-" ++ suffix)
      with (semver ++ String " " ("commit=" ++ hash ++ "-" ++ suffix)).
    rewrite (split_app_sep " " semver _ (parse_no_space _ _ Hsv)).
    destruct (split_hd_cut " " ("commit=" ++ hash ++ "-" ++ suffix)) as [t ->].
    cbn [hd nth_error].
    change ("commit=" ++ hash ++ "-" ++ suffix)
      with ("commit=" ++ (hash ++ String "-" suffix)).
    rewrite (cut_app " " "commit=" _ eq_refl).
    rewrite (cut_app " " hash);
      [|apply hash_chars; [intros c Hc; apply (hex_facts c Hc)|assumption]].
    cbn [cut Ascii.eqb Bool.eqb fst].
    destruct (cut " " suffix) as [s1 s2]. cbn [fst].
    rewrite remove_first_prefix.
    now rewrite (clean_hash_dash _ _ Hh). }
  rewrite Hn. split; [reflexivity|exact Hsv].
Qed.

Lemma normalize_hash_form_valid_witness :
  normalize "0.5.1-beta commit=abcdef-0.5.1-beta.rc2"
  = mkNormalized "0.5.1-beta" None
      (Some (CouldNotGetVersion "0.5.1-beta commit=abcdef-0.5.1-beta.rc2"))
  /\ parse (n_version (normalize "0.5.1-beta commit=abcdef-0.5.1-beta.rc2"))
     = Some (mkSemVer 0 5 1 [IdStr "beta"] []).
Proof.
  apply (normalize_hash_form_valid "0.5.1-beta" "abcdef" "0.5.1-beta.rc2"
           (mkSemVer 0 5 1 [IdStr "beta"] [])); vm_compute; reflexivity.
Defined.

(** ** [closestLower] and the build refinement *)

Lemma round53_small (n : N) : (n < 9007199254740992)%N -> round53 n = n.
Proof.
  intros H. unfold round53.
  change (2 ^ 53)%N with 9007199254740992%N.
  destruct (N.ltb_spec n 9007199254740992); [reflexivity|lia].
Qed.

Lemma abs_diff_safe (a t : Z) :
  safe a -> safe t -> (a <= t)%Z -> abs_diff (Num a) (Num t) = Num (t - a).
Proof.
  unfold safe. intros Ha Ht Hle. unfold abs_diff.
  rewrite round53_small by lia. f_equal. lia.
Qed.

Lemma filter_num_le (zs : list Z) (t : Z) :
  filter (fun v => num_le v (Num t)) (map Num zs)
  = map Num (filter (fun z => (z <=? t)%Z) zs).
Proof.
  induction zs as [|z zs IH]; simpl; [reflexivity|].
  rewrite IH. now destruct (z <=? t)%Z.
Qed.

Section Closest.

Variable t : Z.
Hypothesis safe_t : safe t.

Let closer (prev curr : number) : number :=
  if num_lt (abs_diff curr (Num t)) (abs_diff prev (Num t)) then curr else prev.

Lemma closer_is_max (a b : Z) :
  safe a -> safe b -> (a <= t)%Z -> (b <= t)%Z ->
  closer (Num a) (Num b) = Num (Z.max a b).
Proof.
  intros Ha Hb Hat Hbt. unfold closer.
  rewrite !abs_diff_safe by assumption. simpl.
  destruct (Z.ltb_spec (t - b) (t - a)); f_equal; lia.
Qed.

Lemma fold_closer_is_max (l : list Z) (first : Z) :
  safe first -> (first <= t)%Z ->
  Forall (fun a => safe a /\ (a <= t)%Z) l ->
  fold_left closer (map Num l) (Num first) = Num (fold_left Z.max l first).
Proof.
  intros Hs Hle Hl. revert first Hs Hle.
  induction Hl as [|a l [Hsa Hat] Hl IH]; intros first Hs Hle; simpl;
    [reflexivity|].
  rewrite closer_is_max by assumption.
  apply IH; unfold safe in *; lia.
Qed.

End Closest.

Lemma fold_max_spec (l : list Z) (first : Z) :
  In (fold_left Z.max l first) (first :: l)
  /\ (first <= fold_left Z.max l first)%Z
  /\ Forall (fun a => (a <= fold_left Z.max l first)%Z) l.
Proof.
  revert first. induction l as [|a l IH]; intros first; simpl.
  - repeat split; [now left|lia|constructor].
  - destruct (IH (Z.max first a)) as (Hin & Hge & Hall).
    repeat split.
    + destruct Hin as [Hin|Hin]; [|now right; right].
      destruct (Z.max_spec first a) as [[_ E]|[_ E]].
      * right. left. now rewrite <- Hin.
      * left. now rewrite <- Hin.
    + lia.
    + constructor; [lia|assumption].
Qed.

(** [closestLower] on integers that doubles hold exactly: the greatest of
    the entries that do not exceed the target, [null] when there is none. *)
Lemma closestLower_spec (zs : list Z) (target : Z) :
  safe target -> Forall safe zs ->
  match closestLower (map Num zs) (Num target) with
  | None => Forall (fun z => (target < z)%Z) zs
  | Some m =>
      exists z, m = Num z /\ In z zs /\ (z <= target)%Z
                /\ Forall (fun a => (a <= target)%Z -> (a <= z)%Z) zs
  end.
Proof.
  intros Ht Hzs. unfold closestLower. rewrite filter_num_le.
  destruct (filter (fun z => (z <=? target)%Z) zs) as [|first rest] eqn:E; simpl.
  - apply Forall_forall. intros z Hz.
    destruct (Z.leb_spec z target) as [Hle|]; [|assumption].
    assert (Hin : In z (filter (fun z => (z <=? target)%Z) zs)).
    { apply filter_In. split; [assumption|]. now apply Z.leb_le. }
    rewrite E in Hin. contradiction.
  - assert (Hall : forall a, In a (first :: rest) ->
                             In a zs /\ safe a /\ (a <= target)%Z).
    { intros a Ha. rewrite <- E in Ha. apply filter_In in Ha as [Hin Hle].
      rewrite Forall_forall in Hzs. repeat split; auto; try apply (Hzs a Hin).
      now apply Z.leb_le. }
    destruct (Hall first (or_introl eq_refl)) as (_ & Hsf & Hlf).
    rewrite (fold_closer_is_max target Ht rest first Hsf Hlf).
    2:{ apply Forall_forall. intros a Ha. apply (Hall a). now right. }
    destruct (fold_max_spec rest first) as (Hin & Hge & Hmax).
    exists (fold_left Z.max rest first).
    split; [reflexivity|]. split; [apply (Hall _ Hin)|].
    split; [apply (Hall _ Hin)|].
    apply Forall_forall. intros a Ha Hle.
    assert (Hin' : In a (first :: rest)).
    { rewrite <- E. apply filter_In. split; [assumption|]. now apply Z.leb_le. }
    destruct Hin' as [<-|Hin']; [assumption|].
    rewrite Forall_forall in Hmax. now apply Hmax.
Qed.

(** Lines 238 to 247 once the builds of the candidates and the target are
    numbers. *)
Lemma refine_closest (version : string) (p : SemVer) (versions : list string)
    (match_ : option string) (builds : list number) (val : number) :
  builds_of (matchVersions version versions) = Returned builds ->
  array_number (build p) = Returned val ->
  refine version (Some p) versions match_
  = match build p with
    | [] => Returned match_
    | _ :: _ =>
        match positive_match (closestLower builds val) with
        | Some z =>
            match Number_toString z with
            | Some text => Returned (Some (version ++ "+" ++ text))
            | None => Unmodelled
            end
        | None => Returned match_
        end
    end.
Proof.
  intros Hb Hv. unfold refine. revert Hv.
  destruct (build p) as [|b bs]; intros Hv; [reflexivity|].
  unfold matchVersions in Hb. rewrite Hb. cbn [bind].
  destruct builds as [|x xs]; [reflexivity|].
  rewrite Hv. reflexivity.
Qed.

Lemma Number_toString_safe (z : Z) :
  safe z -> Number_toString z = Some (decimal (Z.to_N z)).
Proof.
  unfold safe, Number_toString. intros Hz.
  change (2 ^ 53)%Z with 9007199254740992%Z.
  destruct (Z.leb_spec 0 z); [|lia].
  destruct (Z.ltb_spec z 9007199254740992); [reflexivity|lia].
Qed.

Lemma prefix_exists (p s : string) :
  String.prefix p s = true <-> exists x, s = p ++ x.
Proof.
  split; [|intros [x ->]; apply prefix_app].
  revert s. induction p as [|c p IH]; intros s; simpl.
  - intros _. now exists s.
  - destruct s as [|c' s]; simpl; [discriminate|].
    destruct (ascii_dec c c') as [<-|]; intros H; [|discriminate H].
    destruct (IH _ H) as [x ->]. now exists x.
Qed.

(** Line 240 keeps the entries that are the version, a plus and a suffix. *)
Lemma matchVersions_spec (version : string) (versions : list string) (v : string) :
  In v (matchVersions version versions)
  <-> In v versions /\ exists suffix, v = version ++ "+" ++ suffix.
Proof.
  unfold matchVersions, startsWith. rewrite filter_In, prefix_exists.
  split; intros [Hin [x ->]]; (split; [assumption|]); exists x;
    apply app_assoc_str || (symmetry; apply app_assoc_str).
Qed.

(** The build number read at line 242 on such an entry. *)
Lemma build_of_suffix (version suffix : string) :
  str_all (other_than "+") version = true ->
  build_of (version ++ "+" ++ suffix) = Number_of_string (fst (cut "+" suffix)).
Proof.
  intros H. unfold build_of.
  change (version ++ "+" ++ suffix) with (version ++ String "+" suffix).
  rewrite (split_app_sep "+" _ _ H).
  now destruct (split_hd_cut "+" suffix) as [t ->].
Qed.

(** C6, amended: the refinement looks at the candidates that start with the
    normalized version and a plus; when their build numbers [zs] and the
    target are integers below 2^53, which doubles hold exactly and subtract
    exactly (beyond, the distances round), [closestLower] returns the
    greatest build number that does not exceed the target. If there is none
    the primary match stands; a positive one replaces the match by the
    version, a plus and that number. On 1, 3, 7, 10 and the target 8 the
    number is 7. *)
Theorem closestLower_selects_max (version : string) (p : SemVer)
    (versions : list string) (match_ : option string) (zs : list Z) (target : Z) :
  build p = [BNum (Num target)] ->
  safe target -> Forall safe zs ->
  builds_of (matchVersions version versions) = Returned (map Num zs) ->
  match closestLower (map Num zs) (Num target) with
  | None =>
      Forall (fun z => (target < z)%Z) zs
      /\ refine version (Some p) versions match_ = Returned match_
  | Some m =>
      exists z, m = Num z /\ In z zs /\ (z <= target)%Z
                /\ Forall (fun a => (a <= target)%Z -> (a <= z)%Z) zs
                /\ ((0 < z)%Z ->
                    refine version (Some p) versions match_
                    = Returned (Some (version ++ "+" ++ decimal (Z.to_N z))))
  end
  /\ closestLower [Num 1; Num 3; Num 7; Num 10] (Num 8) = Some (Num 7)
  /\ (forall v, In v (matchVersions version versions)
                <-> In v versions /\ exists suffix, v = version ++ "+" ++ suffix).
Proof.
  intros Hbuild Ht Hzs Hb.
  split; [|split; [reflexivity|intros v; apply matchVersions_spec]].
  assert (Hv : array_number (build p) = Returned (Num target))
    by now rewrite Hbuild.
  pose proof (refine_closest version p versions match_ _ _ Hb Hv) as Hr.
  rewrite Hbuild in Hr.
  pose proof (closestLower_spec zs target Ht Hzs) as Hspec.
  destruct (closestLower (map Num zs) (Num target)) as [m|].
  - destruct Hspec as (z & -> & Hin & Hle & Hmax).
    exists z. repeat split; try assumption.
    intros Hpos. rewrite Hr. simpl.
    destruct (Z.ltb_spec 0 z); [|lia].
    rewrite Number_toString_safe; [reflexivity|].
    rewrite Forall_forall in Hzs. now apply Hzs.
  - split; [assumption|]. rewrite Hr. reflexivity.
Qed.

Lemma closestLower_selects_max_witness :
  refine "0.5.2" (Some (mkSemVer 0 5 2 [] [BNum (Num 8)]))
    ["0.5.2+1"; "0.5.2+3"; "0.5.2+7"; "0.5.2+10"] None
  = Returned (Some "0.5.2+7").
Proof.
  destruct (closestLower_selects_max "0.5.2" (mkSemVer 0 5 2 [] [BNum (Num 8)])
              ["0.5.2+1"; "0.5.2+3"; "0.5.2+7"; "0.5.2+10"] None
              [1; 3; 7; 10]%Z 8%Z) as [H _].
  - reflexivity.
  - unfold safe. lia.
  - repeat constructor; unfold safe; lia.
  - vm_compute. reflexivity.
  - change (closestLower (map Num [1; 3; 7; 10]%Z) (Num 8)) with (Some (Num 7)) in H.
    destruct H as (z & Hz & _ & _ & _ & Hr).
    injection Hz as <-. apply Hr. lia.
Defined.

(** C10: when the build number that [closestLower] returns is 0, line 244
    ([closestMatch > 0]) is false, the match is not replaced, and the call
    returns what the primary search found. *)
Theorem zero_build_not_applied (st : normalized) (versions : list string)
    (p : SemVer) (builds : list number) (val : number) :
  n_parse st = Some p ->
  builds_of (matchVersions (n_version st) versions) = Returned builds ->
  array_number (build p) = Returned val ->
  closestLower builds val = Some (Num 0) ->
  select st versions = stepA st versions.
Proof.
  intros Hp Hb Hv Hc. unfold select, stepA.
  destruct (filteredVersions versions) as [filtered| |]; simpl; try reflexivity.
  destruct (maxSatisfying_le filtered (n_version st)) as [match_| |]; simpl;
    try reflexivity.
  rewrite Hp, (refine_closest _ _ _ match_ _ _ Hb Hv), Hc. simpl.
  now destruct (build p).
Qed.

Lemma zero_build_not_applied_witness :
  select (normalize "0.5.2-beta commit=v0.5.2-beta-8-gabcdef") ["0.5.1"; "0.5.2+0"]
  = Returned (Some "0.5.2")
  /\ stepA (normalize "0.5.2-beta commit=v0.5.2-beta-8-gabcdef") ["0.5.1"; "0.5.2+0"]
     = Returned (Some "0.5.2").
Proof.
  split; [|vm_compute; reflexivity].
  rewrite (zero_build_not_applied
             (normalize "0.5.2-beta commit=v0.5.2-beta-8-gabcdef")
             ["0.5.1"; "0.5.2+0"] (mkSemVer 0 5 2 [] [BNum (Num 8)])
             [Num 0] (Num 8));
    vm_compute; reflexivity.
Defined.

(** ** The comparison of a version with itself, and the text of a result *)

Lemma ident_same_refl (x : ident) : ident_same x x = true.
Proof. destruct x; simpl; [apply N.eqb_refl|apply String.eqb_refl]. Qed.

Lemma comparePreLoop_refl (l : list ident) : comparePreLoop l l = Eq.
Proof.
  induction l as [|x l IH]; simpl; [reflexivity|].
  now rewrite ident_same_refl.
Qed.

Lemma compare_refl (x : SemVer) : compare x x = Eq.
Proof.
  unfold compare, compareMain, comparePre. rewrite !N.compare_refl.
  destruct (prerelease x) eqn:E; [reflexivity|].
  apply comparePreLoop_refl.
Qed.

Lemma lte_refl (x : SemVer) : lte x x = true.
Proof. unfold lte. now rewrite compare_refl. Qed.

(** The comparison does not read the build. *)
Lemma lte_same_fields (a a' b : SemVer) :
  major a = major a' -> minor a = minor a' -> patch a = patch a' ->
  prerelease a = prerelease a' -> lte a b = lte a' b.
Proof.
  intros H1 H2 H3 H4. unfold lte, compare, compareMain, comparePre.
  now rewrite H1, H2, H3, H4.
Qed.

Lemma maxLoop_sound (sv : SemVer) (versions : list string)
    (max : option (string * SemVer)) (m : string) :
  maxLoop sv versions max = Returned (Some m) ->
  (forall v x, max = Some (v, x) -> parse v = Some x /\ lte x sv = true) ->
  exists x, parse m = Some x /\ lte x sv = true.
Proof.
  revert max. induction versions as [|v rest IH]; intros max; simpl.
  - intros [= E] Hmax. destruct max as [[v x]|]; [|discriminate].
    simpl in E. injection E as <-. exists x. now apply Hmax.
  - destruct (nonempty v); simpl; [|apply IH].
    destruct (parse v) as [x|] eqn:Ev; [|discriminate].
    destruct (lte x sv) eqn:El; [|apply IH].
    assert (Hnew : forall v' x', Some (v, x) = Some (v', x') ->
                                 parse v' = Some x' /\ lte x' sv = true)
      by (intros v' x' [= <- <-]; now split).
    destruct max as [[v0 maxSV]|].
    + destruct (compare maxSV x); intros H Hmax;
        first [now apply (IH _ H Hnew) | now apply (IH _ H Hmax)].
    + intros H _. now apply (IH _ H Hnew).
Qed.

Lemma cut_length (sep : ascii) (s : string) :
  (String.length (fst (cut sep s)) <= String.length s)%nat.
Proof.
  induction s as [|c s IH]; simpl; [lia|].
  destruct (Ascii.eqb c sep); simpl; [lia|].
  destruct (cut sep s). simpl in *. lia.
Qed.

(** The text in front of the build of a version is a version with the same
    numbers and prerelease. *)
Lemma parse_semver_portion (m : string) (x : SemVer) :
  parse m = Some x ->
  parse (semver_portion m)
  = Some (mkSemVer (major x) (minor x) (patch x) (prerelease x) []).
Proof.
  intros H.
  destruct (parse_inv _ _ H)
    as (main & bld & core & pre & M & m1 & p & pres & blds
        & Hlen & Ec1 & Ec2 & Esp & Epre & Ebld & (HM & Hm & Hp)
        & (LM & Lm & Lp) & ->).
  destruct (cut_spec _ _ _ _ Ec1) as [Hmain _].
  assert (Hstrip : strip_v (semver_portion m) = main).
  { unfold semver_portion. destruct m as [|c r]; [simpl in Ec1; now inversion Ec1|].
    destruct (Ascii.eqb_spec c "v") as [->|Hne].
    - simpl in Ec1. simpl. rewrite Ec1. reflexivity.
    - apply Ascii.eqb_neq in Hne. rewrite (strip_v_not_v _ _ Hne) in Ec1.
      rewrite Ec1. simpl. destruct main as [|c' r']; [reflexivity|].
      simpl in Ec1. destruct (Ascii.eqb c "+"); [discriminate|].
      destruct (cut "+" r). inversion Ec1; subst. now apply strip_v_not_v. }
  unfold parse. rewrite Hstrip.
  assert (Hl : (MAX_LENGTH <? String.length (semver_portion m))%nat = false).
  { apply Nat.ltb_ge. pose proof (cut_length "+" m). unfold semver_portion. lia. }
  rewrite Hl, (cut_no_sep "+" main Hmain), Ec2, Esp, Epre. simpl ids_of.
  rewrite HM, Hm, Hp. simpl.
  apply N.leb_le in LM, Lm, Lp. now rewrite LM, Lm, Lp.
Qed.

Lemma string_of_uint_digits (d : Decimal.uint) :
  str_all is_digit (NilEmpty.string_of_uint d) = true.
Proof. induction d; simpl; auto. Qed.

Lemma decimal_digits (n : N) : str_all is_digit (decimal n) = true.
Proof. apply string_of_uint_digits. Qed.

Lemma digit_not_plus (c : ascii) : is_digit c = true -> other_than "+" c = true.
Proof.
  destruct c as [[|] [|] [|] [|] [|] [|] [|] [|]];
    vm_compute; intros H; first [reflexivity | discriminate H].
Qed.

Lemma idchar_not_plus (c : ascii) : is_idchar c = true -> other_than "+" c = true.
Proof.
  destruct c as [[|] [|] [|] [|] [|] [|] [|] [|]];
    vm_compute; intros H; first [reflexivity | discriminate H].
Qed.

Lemma decimal_no_plus (n : N) : str_all (other_than "+") (decimal n) = true.
Proof.
  apply (str_all_impl is_digit); [exact digit_not_plus|apply decimal_digits].
Qed.

Lemma mk_ident_no_plus (id : string) :
  str_all is_idchar id = true ->
  str_all (other_than "+") (ident_text (mk_ident id)) = true.
Proof.
  intros H. unfold mk_ident.
  destruct (numeric id && (digits_value id <? MAX_SAFE_INTEGER)%N); simpl.
  - apply decimal_no_plus.
  - now apply (str_all_impl is_idchar); [exact idchar_not_plus|].
Qed.

(** [format] writes no plus when the prerelease entries have none. *)
Lemma format_no_plus (q : SemVer) :
  Forall (fun i => str_all (other_than "+") (ident_text i) = true) (prerelease q) ->
  str_all (other_than "+") (format q) = true.
Proof.
  intros H. unfold format.
  assert (Hj : str_all (other_than "+") (join "." (map ident_text (prerelease q)))
               = true).
  { apply str_all_join; [reflexivity|]. apply Forall_map. exact H. }
  destruct (prerelease q) as [|i l]; cbv iota;
    rewrite !str_all_app, !decimal_no_plus, ?Hj; reflexivity.
Qed.

Lemma parsed_prerelease_no_plus (s : string) (q : SemVer) :
  parse s = Some q ->
  Forall (fun i => str_all (other_than "+") (ident_text i) = true) (prerelease q).
Proof.
  intros H.
  destruct (parse_inv _ _ H)
    as (main & bld & core & pre & M & m1 & p & pres & blds
        & _ & _ & _ & _ & Epre & _ & _ & _ & ->).
  simpl. destruct (ids_of_spec _ _ _ Epre) as [Hall _].
  apply Forall_map, Forall_forall. intros id Hid.
  apply mk_ident_no_plus, prerelease_id_idchars.
  rewrite forallb_forall in Hall. now apply Hall.
Qed.

Lemma parse_no_plus_build (s : string) (p : SemVer) :
  str_all (other_than "+") s = true -> parse s = Some p -> build p = [].
Proof.
  intros Hs H.
  destruct (parse_inv _ _ H)
    as (main & bld & core & pre & M & m1 & p1 & pres & blds
        & _ & Ec1 & _ & _ & _ & Ebld & _ & _ & ->).
  assert (Hstrip : str_all (other_than "+") (strip_v s) = true).
  { destruct s as [|c r]; [reflexivity|]. simpl in Hs.
    apply andb_true_iff in Hs as [Hc Hr].
    destruct (Ascii.eqb c "v") eqn:Ev.
    - apply Ascii.eqb_eq in Ev. subst. exact Hr.
    - rewrite (strip_v_not_v _ _ Ev). simpl. now rewrite Hc. }
  rewrite (cut_no_sep "+" _ Hstrip) in Ec1. inversion Ec1; subst.
  simpl in Ebld. inversion Ebld. reflexivity.
Qed.

Lemma Forall_firstn_keeps {A : Type} (P : A -> Prop) (n : nat) (l : list A) :
  Forall P l -> Forall P (firstn n l).
Proof.
  intros H. revert n. induction H as [|x l Hx Hl IH]; intros [|n]; simpl;
    constructor; auto.
Qed.

Lemma clean_inv (s fv : string) :
  clean s = Some fv -> exists q, parse (strip_eqv (trim s)) = Some q /\ fv = format q.
Proof.
  unfold clean. destruct (parse (strip_eqv (trim s))) as [q|]; [|discriminate].
  intros [= <-]. now exists q.
Qed.

(** The version cut out of the cleaned commit token at lines 202 to 205. *)
Lemma truncated_no_plus (s fv : string) :
  clean s = Some fv ->
  str_all (other_than "+") (join "-" (firstn 3 (split "-" fv))) = true.
Proof.
  intros H. destruct (clean_inv _ _ H) as (q & Hq & ->).
  apply str_all_join; [reflexivity|].
  apply Forall_firstn_keeps, split_pieces, format_no_plus.
  exact (parsed_prerelease_no_plus _ _ Hq).
Qed.

(** When normalization records a build number, the normalized version has
    no plus in it. *)
Lemma normalize_build_no_plus (versionString : string) (p : SemVer)
    (b : bident) (bs : list bident) :
  n_parse (normalize versionString) = Some p ->
  build p = b :: bs ->
  str_all (other_than "+") (n_version (normalize versionString)) = true.
Proof.
  unfold normalize.
  destruct (nth_error (split " " versionString) 1) as [commitString|];
    [|discriminate].
  destruct (clean (remove_first "commit=" commitString)) as [fv|] eqn:Ec;
    [|discriminate].
  pose proof (truncated_no_plus _ _ Ec) as Hv.
  destruct (parse (join "-" (firstn 3 (split "-" fv)))) as [p0|] eqn:Ep;
    [|discriminate].
  pose proof (parse_no_plus_build _ _ Hv Ep) as Hb0.
  destruct (prerelease p0) as [|[n|first] rest]; simpl.
  - intros [= <-] Hb. congruence.
  - intros [= <-] Hb. congruence.
  - unfold retag.
    destruct (numeric (hd "undefined"
                (filter (fun x => negb (x =? "beta")) (split "-" first)))).
    + intros _ _. apply format_no_plus. constructor.
    + intros [= <-] Hb. simpl in Hb. congruence.
Qed.

(** What lines 238 to 247 return: the match they received, or the version,
    a plus and a number when [parse] holds a build. *)
Lemma refine_cases (version : string) (p : option SemVer)
    (versions : list string) (match_ r : option string) :
  refine version p versions match_ = Returned r ->
  r = match_
  \/ exists p' b bs text,
       p = Some p' /\ build p' = b :: bs /\ r = Some (version ++ "+" ++ text).
Proof.
  unfold refine. destruct p as [p'|]; [|intros [= <-]; now left].
  destruct (build p') as [|b bs] eqn:Eb; [intros [= <-]; now left|].
  destruct (builds_of _) as [builds| |]; cbn [bind]; try discriminate.
  destruct builds as [|x xs]; cbn [bind positive_match];
    [intros [= <-]; now left|].
  destruct (array_number (b :: bs)) as [val| |]; cbn [bind]; try discriminate.
  destruct (positive_match (closestLower (x :: xs) val)) as [z|];
    [|intros [= <-]; now left].
  destruct (Number_toString z) as [text|]; [|discriminate].
  intros [= <-]. right. now exists p', b, bs, text.
Qed.

(** ** Formatting a parsed version gives back its text *)

Lemma uint_of_digits (s : string) :
  str_all is_digit s = true -> exists d, NilEmpty.uint_of_string s = Some d.
Proof.
  induction s as [|c s IH]; simpl; [now eexists|].
  intros H. apply andb_true_iff in H as [Hc Hs].
  destruct (IH Hs) as [d ->]. revert Hc.
  destruct c as [[|] [|] [|] [|] [|] [|] [|] [|]];
    vm_compute; intros Hc; first [discriminate Hc | now eexists].
Qed.

Lemma numeric_id_unorm (s : string) (d : Decimal.uint) :
  numeric_id s = true -> NilEmpty.uint_of_string s = Some d ->
  Decimal.unorm d = d.
Proof.
  unfold numeric_id, numeric. intros H.
  apply andb_true_iff in H as [H Hlead].
  apply andb_true_iff in H as [Hne Hall].
  destruct s as [|c s]; [discriminate|]. simpl in Hall.
  apply andb_true_iff in Hall as [Hc Hs].
  destruct (uint_of_digits s Hs) as [d' Hd']. simpl. rewrite Hd'.
  revert Hc Hlead.
  destruct c as [[|] [|] [|] [|] [|] [|] [|] [|]];
    vm_compute; intros Hc; try discriminate Hc;
    intros Hlead [= <-]; try reflexivity.
  destruct s; [|discriminate Hlead].
  simpl in Hd'. now inversion Hd'.
Qed.

Lemma decimal_digits_value (s : string) :
  numeric_id s = true -> decimal (digits_value s) = s.
Proof.
  intros H. destruct (uint_of_digits s (numeric_id_digits s H)) as [d Hd].
  unfold decimal, digits_value. rewrite Hd, DecimalN.Unsigned.to_of.
  rewrite (numeric_id_unorm s d H Hd). now apply NilEmpty.sus.
Qed.

Lemma ident_text_mk_ident (id : string) :
  prerelease_id id = true -> ident_text (mk_ident id) = id.
Proof.
  intros H. unfold mk_ident.
  destruct (numeric id) eqn:En; simpl; [|reflexivity].
  destruct (digits_value id <? MAX_SAFE_INTEGER)%N; simpl; [|reflexivity].
  apply decimal_digits_value.
  unfold prerelease_id in H. apply orb_true_iff in H as [H|H]; [assumption|].
  apply andb_true_iff in H as [_ H]. apply negb_true_iff in H.
  unfold numeric in En. apply andb_true_iff in En as [_ En]. congruence.
Qed.

Lemma map_ident_text (pres : list string) :
  forallb prerelease_id pres = true ->
  map ident_text (map mk_ident pres) = pres.
Proof.
  induction pres as [|id pres IH]; simpl; [reflexivity|].
  intros H. apply andb_true_iff in H as [Hid Hpres].
  now rewrite (ident_text_mk_ident _ Hid), (IH Hpres).
Qed.

(** [format] after [parse] is the text of the version without its optional
    [v] and without its build. *)
Lemma format_parsed (c : string) (x : SemVer) :
  parse c = Some x -> format x = fst (cut "+" (strip_v c)).
Proof.
  intros H.
  destruct (parse_inv _ _ H)
    as (main & bld & core & pre & M & m & p & pres & blds
        & _ & Ec1 & Ec2 & Esp & Epre & _ & (HM & Hm & Hp) & _ & ->).
  rewrite Ec1. simpl fst. unfold format. cbn [major minor patch prerelease].
  rewrite !decimal_digits_value by assumption.
  destruct (ids_of_spec _ _ _ Epre) as [Hall Hpres].
  destruct (cut_spec _ _ _ _ Ec2) as [_ ->].
  assert (Hcore : core = M ++ "." ++ m ++ "." ++ p).
  { rewrite <- (join_split "." core), Esp. reflexivity. }
  assert (Htail : match map mk_ident pres with
                  | [] => ""
                  | _ :: _ => "-" ++ join "." (map ident_text (map mk_ident pres))
                  end
                  = match pre with
                    | None => ""
                    | Some r => String "-" r
                    end).
  { rewrite (map_ident_text _ Hall). destruct pre as [r|].
    - pose proof (split_not_nil "." r) as Hn. rewrite <- Hpres in Hn.
      destruct pres as [|id pres']; [contradiction|].
      simpl map. cbv iota. now rewrite Hpres, join_split.
    - now subst pres. }
  transitivity (M ++ "." ++ m ++ "." ++ p
                ++ match pre with
                   | None => ""
                   | Some r => String "-" r
                   end).
  - rewrite <- Htail. now destruct (map mk_ident pres).
  - rewrite Hcore. destruct pre; rewrite ?app_nil_str, ?app_assoc_str; reflexivity.
Qed.

Lemma numeric_first_not_v (M rest : string) :
  numeric_id M = true -> strip_v (M ++ rest) = M ++ rest.
Proof.
  unfold numeric_id, numeric. intros H.
  apply andb_true_iff in H as [H _]. apply andb_true_iff in H as [Hne Hall].
  destruct M as [|c M]; [discriminate|]. simpl in Hall.
  apply andb_true_iff in Hall as [Hc _]. simpl.
  apply strip_v_not_v. revert Hc.
  destruct c as [[|] [|] [|] [|] [|] [|] [|] [|]];
    vm_compute; intros Hc; first [discriminate Hc | reflexivity].
Qed.

Lemma strip_v_length (s : string) :
  (String.length (strip_v s) <= String.length s)%nat.
Proof.
  destruct s as [|c r]; [simpl; lia|].
  destruct (Ascii.eqb c "v") eqn:E.
  - apply Ascii.eqb_eq in E. subst. simpl. lia.
  - rewrite (strip_v_not_v _ _ E). lia.
Qed.

(** The text that [format] gives for a parsed version is itself a version. *)
Lemma parse_format_parsed (c : string) (x : SemVer) :
  parse c = Some x ->
  parse (format x)
  = Some (mkSemVer (major x) (minor x) (patch x) (prerelease x) []).
Proof.
  intros H. rewrite (format_parsed _ _ H).
  destruct (parse_inv _ _ H)
    as (main & bld & core & pre & M & m & p & pres & blds
        & Hlen & Ec1 & Ec2 & Esp & Epre & _ & (HM & Hm & Hp)
        & (LM & Lm & Lp) & ->).
  pose proof (cut_length "+" (strip_v c)) as Hl1.
  pose proof (strip_v_length c) as Hl2.
  rewrite Ec1 in *. simpl fst in *.
  destruct (cut_spec _ _ _ _ Ec1) as [Hmain _].
  assert (Hstrip : strip_v main = main).
  { destruct (cut_spec _ _ _ _ Ec2) as [_ Em].
    assert (Hcore : core = M ++ "." ++ m ++ "." ++ p)
      by (rewrite <- (join_split "." core), Esp; reflexivity).
    rewrite Em, Hcore. destruct pre; rewrite ?app_assoc_str;
      now apply numeric_first_not_v. }
  unfold parse. rewrite Hstrip.
  assert (Hl : (MAX_LENGTH <? String.length main)%nat = false)
    by (apply Nat.ltb_ge; lia).
  rewrite Hl, (cut_no_sep "+" main Hmain), Ec2, Esp, Epre. simpl ids_of.
  rewrite HM, Hm, Hp. simpl.
  apply N.leb_le in LM, Lm, Lp. now rewrite LM, Lm, Lp.
Qed.

(** ** The catalog of versions, and the version after a warning *)

Lemma filteredVersions_returns (versions : list string) :
  forallb is_version versions = true ->
  exists filtered,
    filteredVersions versions = Returned filtered
    /\ Forall (fun f => is_version f = true) filtered.
Proof.
  induction versions as [|v rest IH]; simpl.
  - intros _. exists []. now split.
  - intros H. apply andb_true_iff in H as [Hv Hrest].
    destruct (IH Hrest) as (fs & -> & Hfs).
    unfold is_version in Hv. destruct (parse v) as [x|] eqn:Ev; [|discriminate].
    exists (format x :: fs). split; [reflexivity|].
    constructor; [|assumption].
    unfold is_version. now rewrite (parse_format_parsed _ _ Ev).
Qed.

Lemma maxLoop_returns (sv : SemVer) (versions : list string) :
  Forall (fun f => is_version f = true) versions ->
  forall max, exists r, maxLoop sv versions max = Returned r.
Proof.
  induction 1 as [|v rest Hv Hrest IH]; intros max; simpl; [now eexists|].
  destruct (nonempty v); simpl; [|apply IH].
  unfold is_version in Hv. destruct (parse v) as [x|]; [|discriminate].
  destruct (lte x sv); [|apply IH].
  destruct max as [[v0 maxSV]|]; [|apply IH].
  destruct (compare maxSV x); apply IH.
Qed.

(** Without a build in [parse], lines 238 to 247 leave the match alone. *)
Lemma refine_no_build (version : string) (p : option SemVer)
    (versions : list string) (match_ : option string) :
  no_build p -> refine version p versions match_ = Returned match_.
Proof.
  unfold refine, no_build. destruct p as [p|]; [|reflexivity].
  now intros ->.
Qed.

(** What the [catch] leaves behind. *)
Lemma normalize_warning (versionString : string) :
  match n_warning (normalize versionString) with
  | None => True
  | Some _ =>
      no_build (n_parse (normalize versionString))
      /\ (n_version (normalize versionString)
          = hd EmptyString (split " " versionString)
          \/ exists commitString fullversionsemver,
               nth_error (split " " versionString) 1 = Some commitString
               /\ clean (remove_first "commit=" commitString)
                  = Some fullversionsemver
               /\ n_version (normalize versionString)
                  = truncated fullversionsemver)
  end.
Proof.
  unfold normalize, truncated.
  destruct (nth_error (split " " versionString) 1) as [commitString|];
    [|simpl; split; [exact I|now left]].
  destruct (clean (remove_first "commit=" commitString)) as [fv|] eqn:Ec;
    [|simpl; split; [exact I|now left]].
  pose proof (truncated_no_plus _ _ Ec) as Hv.
  destruct (parse (join "-" (firstn 3 (split "-" fv)))) as [p0|] eqn:Ep;
    [|simpl; split; [exact I|right; now exists commitString, fv]].
  pose proof (parse_no_plus_build _ _ Hv Ep) as Hb0.
  destruct (prerelease p0) as [|[n|first] rest]; simpl; try exact I;
    (split; [assumption|right; now exists commitString, fv]).
Qed.


(** ** Semver precedence is a total preorder on plain versions *)

Import Latest Precedence.

Lemma cmp_ok_refl {A : Type} (f : A -> A -> comparison) (x : A) :
  cmp_ok f -> f x x = Eq.
Proof. intros (He & _ & _). now apply He. Qed.

Lemma le_by_trans {A : Type} (f : A -> A -> comparison) (x y z : A) :
  cmp_ok f -> le_by f x y = true -> le_by f y z = true -> le_by f x z = true.
Proof.
  intros (He & Ha & Ht). unfold le_by.
  destruct (f x y) eqn:Exy; try discriminate;
    destruct (f y z) eqn:Eyz; try discriminate; intros _ _.
  - apply He in Exy, Eyz. subst. now rewrite (proj2 (He z z) eq_refl).
  - apply He in Exy. subst. now rewrite Eyz.
  - apply He in Eyz. subst. now rewrite Exy.
  - now rewrite (Ht _ _ _ Exy Eyz).
Qed.

Lemma le_by_total {A : Type} (f : A -> A -> comparison) (x y : A) :
  cmp_ok f -> le_by f x y = false -> le_by f y x = true.
Proof.
  intros (_ & Ha & _). unfold le_by. rewrite (Ha y x).
  now destruct (f x y).
Qed.

Lemma le_by_antisym {A : Type} (f : A -> A -> comparison) (x y : A) :
  cmp_ok f -> le_by f x y = true -> le_by f y x = true -> x = y.
Proof.
  intros (He & Ha & _). unfold le_by. rewrite (Ha y x).
  destruct (f x y) eqn:E; simpl; try discriminate.
  intros _ _. now apply He.
Qed.

Lemma N_compare_ok : cmp_ok N.compare.
Proof.
  repeat split.
  - apply N.compare_eq_iff.
  - intros ->. apply N.compare_refl.
  - intros x y. apply N.compare_antisym.
  - intros x y z. rewrite !N.compare_lt_iff. apply N.lt_trans.
Qed.

Lemma ascii_compare_ok : cmp_ok Ascii.compare.
Proof.
  repeat split.
  - apply Ascii.compare_eq_iff.
  - intros ->. apply N.compare_refl.
  - intros x y. apply Ascii.compare_antisym.
  - intros x y z. unfold Ascii.compare. rewrite !N.compare_lt_iff.
    apply N.lt_trans.
Qed.

Lemma string_compare_refl (s : string) : String.compare s s = Eq.
Proof.
  induction s as [|c s IH]; simpl; [reflexivity|].
  now rewrite (cmp_ok_refl _ c ascii_compare_ok).
Qed.

Lemma string_compare_ok : cmp_ok String.compare.
Proof.
  destruct ascii_compare_ok as (He & Ha & Ht).
  repeat split.
  - apply String.compare_eq_iff.
  - intros ->. apply string_compare_refl.
  - apply String.compare_antisym.
  - intros x. induction x as [|a x IH]; intros [|b y] [|c z]; simpl;
      try discriminate; auto.
    destruct (Ascii.compare a b) eqn:Eab; try discriminate;
      destruct (Ascii.compare b c) eqn:Ebc; try discriminate.
    + apply He in Eab, Ebc. subst. rewrite (proj2 (He c c) eq_refl). apply IH.
    + apply He in Eab. subst. now rewrite Ebc.
    + apply He in Ebc. subst. now rewrite Eab.
    + now rewrite (Ht _ _ _ Eab Ebc).
Qed.

Lemma lex_ok {A : Type} (f : A -> A -> comparison) : cmp_ok f -> cmp_ok (lex f).
Proof.
  intros (He & Ha & Ht). repeat split.
  - revert y. induction x as [|a x IH]; intros [|b y]; simpl;
      try discriminate; auto.
    destruct (f a b) eqn:Eab; try discriminate.
    intros H. apply He in Eab. subst. f_equal. now apply IH.
  - intros <-. induction x as [|a x IH]; simpl; [reflexivity|].
    now rewrite (proj2 (He a a) eq_refl).
  - intros x. induction x as [|a x IH]; intros [|b y]; simpl; auto.
    rewrite (Ha a b). destruct (f b a); simpl; auto.
  - intros x. induction x as [|a x IH]; intros [|b y] [|c z]; simpl;
      try discriminate; auto.
    destruct (f a b) eqn:Eab; try discriminate;
      destruct (f b c) eqn:Ebc; try discriminate.
    + apply He in Eab, Ebc. subst. rewrite (proj2 (He c c) eq_refl). apply IH.
    + apply He in Eab. subst. now rewrite Ebc.
    + apply He in Ebc. subst. now rewrite Eab.
    + now rewrite (Ht _ _ _ Eab Ebc).
Qed.

Lemma ident_order_ok : cmp_ok ident_order.
Proof.
  destruct N_compare_ok as (HeN & HaN & HtN).
  destruct string_compare_ok as (HeS & HaS & HtS).
  repeat split.
  - destruct x, y; simpl; try discriminate; intros H; f_equal;
      [now apply HeN|now apply HeS].
  - intros <-. destruct x; simpl; [now apply HeN|now apply HeS].
  - intros [n|s] [m|t]; simpl; auto.
  - intros [n|s] [m|t] [k|u]; simpl; try discriminate; auto.
    + apply HtN.
    + apply HtS.
Qed.

Lemma pre_order_ok : cmp_ok pre_order.
Proof.
  destruct (lex_ok _ ident_order_ok) as (He & Ha & Ht).
  repeat split.
  - destruct x as [|a x], y as [|b y]; simpl; try discriminate; auto.
    apply (He (a :: x) (b :: y)).
  - intros <-. destruct x as [|a x]; [reflexivity|].
    apply (proj2 (He (a :: x) (a :: x)) eq_refl).
  - intros [|a x] [|b y]; simpl; auto. apply (Ha (a :: x) (b :: y)).
  - intros [|a x] [|b y] [|c z]; simpl; try discriminate; auto.
    apply (Ht (a :: x) (b :: y) (c :: z)).
Qed.

Lemma key_order_ok : cmp_ok key_order.
Proof.
  destruct (lex_ok _ N_compare_ok) as (HeM & HaM & HtM).
  destruct pre_order_ok as (HeP & HaP & HtP).
  unfold key_order. repeat split.
  - destruct x as [xm xp], y as [ym yp]; simpl.
    destruct (lex N.compare xm ym) eqn:Em; try discriminate.
    intros H. apply HeM in Em. apply HeP in H. now subst.
  - intros <-. destruct x as [xm xp]; simpl.
    rewrite (proj2 (HeM xm xm) eq_refl). now apply HeP.
  - intros [xm xp] [ym yp]; simpl. rewrite (HaM xm ym).
    destruct (lex N.compare ym xm); simpl; auto.
  - intros [xm xp] [ym yp] [zm zp]; simpl.
    destruct (lex N.compare xm ym) eqn:Exy; try discriminate;
      destruct (lex N.compare ym zm) eqn:Eyz; try discriminate.
    + apply HeM in Exy, Eyz. subst. rewrite (proj2 (HeM zm zm) eq_refl).
      apply HtP.
    + apply HeM in Exy. subst. now rewrite Eyz.
    + apply HeM in Eyz. subst. now rewrite Exy.
    + now rewrite (HtM _ _ _ Exy Eyz).
Qed.

Lemma decimal_nonempty (n : N) : nonempty (decimal n) = true.
Proof.
  unfold decimal.
  assert (H : N.to_uint n <> Decimal.Nil).
  { destruct n as [|p]; [discriminate|]. apply DecimalPos.Unsigned.to_uint_nonnil. }
  destruct (N.to_uint n); [now elim H|reflexivity..].
Qed.

Lemma decimal_numeric (n : N) : numeric (decimal n) = true.
Proof. unfold numeric. now rewrite decimal_nonempty, decimal_digits. Qed.

Lemma not_numeric_not_decimal (n : N) (s : string) :
  numeric s = false -> String.eqb (decimal n) s = false /\ String.eqb s (decimal n) = false.
Proof.
  intros H. split; apply String.eqb_neq; intros E; subst;
    now rewrite decimal_numeric in H.
Qed.

(** One step of [comparePre] on plain entries follows [ident_order]. *)
Lemma ident_step (x y : ident) :
  plain_ident x = true -> plain_ident y = true ->
  (if ident_same x y then Eq else compareIdentifiers x y) = ident_order x y
  /\ (ident_same x y = true <-> ident_order x y = Eq).
Proof.
  destruct string_compare_ok as (HeS & _ & _).
  destruct x as [n|s], y as [m|t]; simpl; intros Hx Hy;
    try apply negb_true_iff in Hx; try apply negb_true_iff in Hy.
  - unfold compareIdentifiers. simpl.
    destruct (N.eqb_spec n m) as [->|Hne].
    + rewrite N.compare_refl. now split.
    + split; [reflexivity|]. split; [discriminate|].
      intros E. apply N.compare_eq_iff in E. contradiction.
  - unfold compareIdentifiers. simpl.
    destruct (not_numeric_not_decimal n t Hy) as [-> _]. rewrite Hy. simpl.
    split; [reflexivity|]. split; discriminate.
  - unfold compareIdentifiers. simpl.
    destruct (not_numeric_not_decimal m s Hx) as [_ ->]. rewrite Hx. simpl.
    split; [reflexivity|]. split; discriminate.
  - unfold compareIdentifiers. simpl. rewrite Hx, Hy. simpl.
    destruct (String.eqb_spec s t) as [->|Hne].
    + rewrite string_compare_refl. now split.
    + unfold String.ltb.
      destruct (String.compare s t) eqn:E.
      * apply HeS in E. contradiction.
      * split; [reflexivity|]. split; discriminate.
      * split; [reflexivity|]. split; discriminate.
Qed.

Lemma comparePreLoop_lex (a b : list ident) :
  forallb plain_ident a = true -> forallb plain_ident b = true ->
  comparePreLoop a b = lex ident_order a b.
Proof.
  revert b. induction a as [|x a IH]; intros [|y b]; simpl; auto.
  intros Ha Hb. apply andb_true_iff in Ha as [Hx Ha], Hb as [Hy Hb].
  destruct (ident_step x y Hx Hy) as [Hs Hiff].
  destruct (ident_same x y) eqn:E.
  - rewrite (proj1 Hiff eq_refl). now apply IH.
  - rewrite Hs. destruct (ident_order x y); try reflexivity.
    destruct Hiff as [_ Hi]. discriminate (Hi eq_refl).
Qed.

Lemma compare_key (a b : SemVer) :
  plain a = true -> plain b = true ->
  compare a b = key_order (key a) (key b).
Proof.
  unfold plain. intros Ha Hb.
  unfold compare, key_order, key, compareMain, comparePre, pre_order. simpl.
  destruct (major a ?= major b)%N; try reflexivity.
  destruct (minor a ?= minor b)%N; try reflexivity.
  destruct (patch a ?= patch b)%N; try reflexivity.
  destruct (prerelease a) as [|x pa] eqn:Ea, (prerelease b) as [|y pb] eqn:Eb;
    try reflexivity.
  exact (comparePreLoop_lex (x :: pa) (y :: pb) Ha Hb).
Qed.

Lemma lte_key (a b : SemVer) :
  plain a = true -> plain b = true ->
  lte a b = le_by key_order (key a) (key b).
Proof. intros Ha Hb. unfold lte, le_by. now rewrite compare_key. Qed.

(** On plain versions [lte] is transitive and total. *)
Lemma lte_trans (a b c : SemVer) :
  plain a = true -> plain b = true -> plain c = true ->
  lte a b = true -> lte b c = true -> lte a c = true.
Proof.
  intros Ha Hb Hc. rewrite !lte_key by assumption.
  apply le_by_trans, key_order_ok.
Qed.

Lemma lte_total (a b : SemVer) :
  plain a = true -> plain b = true -> lte a b = false -> lte b a = true.
Proof.
  intros Ha Hb. rewrite !lte_key by assumption.
  apply le_by_total, key_order_ok.
Qed.

Lemma lte_antisym (a b : SemVer) :
  plain a = true -> plain b = true ->
  lte a b = true -> lte b a = true -> key a = key b.
Proof.
  intros Ha Hb. rewrite !lte_key by assumption.
  apply le_by_antisym, key_order_ok.
Qed.

Lemma format_key (a b : SemVer) : key a = key b -> format a = format b.
Proof.
  unfold key, format. intros [= H1 H2 H3 H4]. now rewrite H1, H2, H3, H4.
Qed.

(** ** The loop of [maxSatisfying]: what it returns *)

Lemma maxLoop_by (sv : SemVer) (versions : list string)
    (max : option (string * SemVer)) :
  maxLoop sv versions max = maxLoopBy (fun x => lte x sv) versions max.
Proof.
  revert max. induction versions as [|v rest IH]; intros max; simpl;
    [reflexivity|].
  destruct (nonempty v); simpl; [|apply IH].
  destruct (parse v) as [x|]; [|reflexivity].
  destruct (lte x sv); [|apply IH].
  destruct max as [[v0 maxSV]|]; [|apply IH].
  destruct (compare maxSV x); apply IH.
Qed.

Lemma version_nonempty (v : string) (x : SemVer) :
  parse v = Some x -> nonempty v = true.
Proof. destruct v; [vm_compute; discriminate|reflexivity]. Qed.

Lemma maxLoopBy_returns (test : SemVer -> bool) (versions : list string) :
  Forall (fun v => is_version v = true) versions ->
  forall max, exists r, maxLoopBy test versions max = Returned r.
Proof.
  induction 1 as [|v rest Hv Hrest IH]; intros max; simpl; [now eexists|].
  destruct (nonempty v); simpl; [|apply IH].
  unfold is_version in Hv. destruct (parse v) as [x|]; [|discriminate].
  destruct (test x); [|apply IH].
  destruct max as [[v0 maxSV]|]; [|apply IH].
  destruct (compare maxSV x); apply IH.
Qed.

(** Where the result comes from: an entry that passes the test, or the
    running maximum; no result means that no entry passes. *)
Lemma maxLoopBy_member (test : SemVer -> bool) (versions : list string) :
  forall (max : option (string * SemVer)) (r : option string),
  maxLoopBy test versions max = Returned r ->
  match r with
  | None =>
      max = None
      /\ Forall (fun v => forall x, parse v = Some x -> test x = false) versions
  | Some m =>
      (exists x, In m versions /\ parse m = Some x /\ test x = true)
      \/ exists x0, max = Some (m, x0)
  end.
Proof.
  induction versions as [|v rest IH]; intros max r; simpl.
  - intros [= <-]. destruct max as [[v0 x0]|]; simpl.
    + right. now exists x0.
    + now split.
  - assert (Hkeep : maxLoopBy test rest max = Returned r ->
                    (forall x, parse v = Some x -> test x = false) ->
                    match r with
                    | None =>
                        max = None
                        /\ Forall (fun v => forall x, parse v = Some x -> test x = false)
                             (v :: rest)
                    | Some m =>
                        (exists x, (v = m \/ In m rest) /\ parse m = Some x
                                   /\ test x = true)
                        \/ exists x0, max = Some (m, x0)
                    end).
    { intros H Hv. specialize (IH _ _ H). destruct r as [m|].
      - destruct IH as [(x & Hin & Hp & Ht)|IH]; [left|now right].
        exists x. auto.
      - destruct IH as [-> Hall]. split; [reflexivity|now constructor]. }
    assert (Htake : forall x, parse v = Some x -> test x = true ->
                    maxLoopBy test rest (Some (v, x)) = Returned r ->
                    match r with
                    | None =>
                        max = None
                        /\ Forall (fun v => forall x, parse v = Some x -> test x = false)
                             (v :: rest)
                    | Some m =>
                        (exists x, (v = m \/ In m rest) /\ parse m = Some x
                                   /\ test x = true)
                        \/ exists x0, max = Some (m, x0)
                    end).
    { intros x Hp Ht H. specialize (IH _ _ H). destruct r as [m|].
      - left. destruct IH as [(y & Hin & Hpy & Hty)|[x0 [= <- <-]]].
        + exists y. auto.
        + exists x. auto.
      - destruct IH as [IH _]. discriminate IH. }
    destruct (nonempty v) eqn:En; simpl.
    2:{ intros H. apply Hkeep; [assumption|].
        intros x Hx. now rewrite (version_nonempty _ _ Hx) in En. }
    destruct (parse v) as [x|] eqn:Ev; [|discriminate].
    destruct (test x) eqn:Et.
    2:{ intros H. apply Hkeep; [assumption|]. now intros y [= <-]. }
    destruct max as [[v0 maxSV]|]; [|now apply Htake].
    destruct (compare maxSV x); intros H.
    + specialize (IH _ _ H). destruct r as [m|].
      * destruct IH as [(y & Hin & Hpy & Hty)|IH]; [left|now right].
        exists y. auto.
      * destruct IH as [IH _]. discriminate IH.
    + exact (Htake x eq_refl Et H).
    + specialize (IH _ _ H). destruct r as [m|].
      * destruct IH as [(y & Hin & Hpy & Hty)|IH]; [left|now right].
        exists y. auto.
      * destruct IH as [IH _]. discriminate IH.
Qed.

Lemma compare_antisym_plain (a b : SemVer) :
  plain a = true -> plain b = true -> compare a b = CompOpp (compare b a).
Proof.
  intros Ha Hb. rewrite !compare_key by assumption.
  destruct key_order_ok as (_ & Hanti & _). apply Hanti.
Qed.

Lemma not_lt_lte (a b : SemVer) :
  plain a = true -> plain b = true ->
  compare a b <> Lt -> lte b a = true.
Proof.
  intros Ha Hb H. unfold lte. rewrite (compare_antisym_plain b a Hb Ha).
  destruct (compare a b); simpl; try reflexivity. now elim H.
Qed.

(** On plain versions the result of the loop is at least every entry that
    passes the test, and at least the running maximum. *)
Lemma maxLoopBy_max (test : SemVer -> bool) (versions : list string) :
  forall (max : option (string * SemVer)) (m : string) (x : SemVer),
  Forall (fun v => is_plain_version v = true) versions ->
  (forall v0 x0, max = Some (v0, x0) -> parse v0 = Some x0 /\ plain x0 = true) ->
  maxLoopBy test versions max = Returned (Some m) ->
  parse m = Some x ->
  plain x = true
  /\ Forall (fun v => forall y, parse v = Some y -> test y = true -> lte y x = true)
       versions
  /\ (forall v0 x0, max = Some (v0, x0) -> lte x0 x = true).
Proof.
  induction versions as [|v rest IH]; intros max m x Hall Hmax; simpl.
  - destruct max as [[v0 x0]|]; simpl; [|discriminate].
    intros [= ->] Hm. destruct (Hmax _ _ eq_refl) as [Hp Hpl].
    rewrite Hm in Hp. injection Hp as <-.
    repeat split; [assumption|constructor|].
    intros v0 x0 [= <- <-]. apply lte_refl.
  - inversion Hall as [|? ? Hv Hrest]; subst.
    unfold is_plain_version in Hv.
    destruct (parse v) as [xv|] eqn:Ev; [|discriminate].
    rewrite (version_nonempty _ _ Ev). simpl.
    assert (Hnew : forall v0 x0, Some (v, xv) = Some (v0, x0) ->
                                 parse v0 = Some x0 /\ plain x0 = true)
      by (intros v0 x0 [= <- <-]; now split).
    destruct (test xv) eqn:Et.
    2:{ intros H Hm. destruct (IH _ _ _ Hrest Hmax H Hm) as (Hpl & Hr & Hx).
        repeat split; try assumption. constructor; [|assumption].
        intros y Hy. rewrite Ev in Hy. injection Hy as <-. congruence. }
    destruct max as [[v0 x0]|].
    + destruct (Hmax _ _ eq_refl) as [Hp0 Hpl0].
      destruct (compare x0 xv) eqn:Ec; intros H Hm.
      * destruct (IH _ _ _ Hrest Hmax H Hm) as (Hpl & Hr & Hx).
        repeat split; try assumption. constructor; [|assumption].
        intros y Hy _. rewrite Ev in Hy. injection Hy as <-.
        apply (lte_trans xv x0 x);
          [assumption|assumption|assumption| |now apply (Hx v0 x0)].
        apply not_lt_lte; [assumption|assumption|]. rewrite Ec. discriminate.
      * destruct (IH _ _ _ Hrest Hnew H Hm) as (Hpl & Hr & Hx).
        repeat split; try assumption.
        -- constructor; [|assumption]. intros y Hy _. rewrite Ev in Hy. injection Hy as <-. now apply (Hx v xv).
        -- intros v1 x1 [= <- <-].
           apply (lte_trans x0 xv x);
             [assumption|assumption|assumption| |now apply (Hx v xv)].
           unfold lte. now rewrite Ec.
      * destruct (IH _ _ _ Hrest Hmax H Hm) as (Hpl & Hr & Hx).
        repeat split; try assumption. constructor; [|assumption].
        intros y Hy _. rewrite Ev in Hy. injection Hy as <-.
        apply (lte_trans xv x0 x);
          [assumption|assumption|assumption| |now apply (Hx v0 x0)].
        apply not_lt_lte; [assumption|assumption|]. rewrite Ec. discriminate.
    + intros H Hm. destruct (IH _ _ _ Hrest Hnew H Hm) as (Hpl & Hr & Hx).
      repeat split; try assumption; [|discriminate].
      constructor; [|assumption]. intros y Hy _. rewrite Ev in Hy. injection Hy as <-. now apply (Hx v xv).
Qed.

(** ** Line 230: the catalog without prefixes and builds *)

Lemma filteredVersions_inv (versions filtered : list string) :
  filteredVersions versions = Returned filtered ->
  Forall (fun v => is_version v = true) versions
  /\ filtered = map stripped versions.
Proof.
  revert filtered. induction versions as [|v rest IH]; intros filtered; simpl.
  - intros [= <-]. now split.
  - destruct (parse v) as [x|] eqn:Ev; [|discriminate].
    destruct (filteredVersions rest) as [fs| |]; simpl; try discriminate.
    intros [= <-]. destruct (IH fs eq_refl) as [Hall ->]. split.
    + constructor; [|assumption]. unfold is_version. now rewrite Ev.
    + unfold stripped at 1. now rewrite (format_parsed _ _ Ev).
Qed.

Lemma filteredVersions_map (versions : list string) :
  Forall (fun v => is_version v = true) versions ->
  filteredVersions versions = Returned (map stripped versions)
  /\ Forall (fun f => is_version f = true) (map stripped versions).
Proof.
  intros H. rewrite Forall_forall in H.
  assert (Hb : forallb is_version versions = true)
    by (apply forallb_forall; exact H).
  destruct (filteredVersions_returns versions Hb) as (filtered & E & Hf).
  destruct (filteredVersions_inv _ _ E) as [_ ->]. now split.
Qed.

(** X1. Line 230 turns a catalog of versions into the same list without
    the optional [v] in front and without the build suffixes, and nothing
    else changes; the formatted entries are versions again. *)
Theorem filteredVersions_strips (versions : list string) :
  Forall (fun v => is_version v = true) versions ->
  filteredVersions versions = Returned (map stripped versions)
  /\ Forall (fun f => is_version f = true) (map stripped versions).
Proof.
  exact (filteredVersions_map versions).
Qed.

Lemma filteredVersions_strips_witness :
  filteredVersions ["v0.5.2+7"; "0.5.1-beta.rc1"]
  = Returned (map stripped ["v0.5.2+7"; "0.5.1-beta.rc1"])
  /\ Forall (fun f => is_version f = true)
       (map stripped ["v0.5.2+7"; "0.5.1-beta.rc1"]).
Proof.
  apply (filteredVersions_strips ["v0.5.2+7"; "0.5.1-beta.rc1"]).
  repeat constructor.
Defined.

Lemma parse_stripped (c : string) (y : SemVer) :
  parse c = Some y ->
  stripped c = format y
  /\ parse (stripped c)
     = Some (mkSemVer (major y) (minor y) (patch y) (prerelease y) []).
Proof.
  intros H. unfold stripped. rewrite <- (format_parsed _ _ H).
  split; [reflexivity|exact (parse_format_parsed _ _ H)].
Qed.

Lemma lte_stripped (y nv : SemVer) :
  lte (mkSemVer (major y) (minor y) (patch y) (prerelease y) []) nv = lte y nv.
Proof. now apply lte_same_fields. Qed.

Lemma lte_stripped_r (a y : SemVer) :
  lte a (mkSemVer (major y) (minor y) (patch y) (prerelease y) []) = lte a y.
Proof. unfold lte, compare, compareMain, comparePre. reflexivity. Qed.

(** ** The primary match is the greatest entry not above the version *)

Lemma stepA_loop (st : normalized) (versions : list string) (nv : SemVer) :
  parse (n_version st) = Some nv ->
  Forall (fun v => is_version v = true) versions ->
  stepA st versions
  = maxLoopBy (fun x => lte x nv) (map stripped versions) None.
Proof.
  intros Hnv H. unfold stepA.
  destruct (filteredVersions_map versions H) as [-> _]. cbn [bind].
  unfold maxSatisfying_le, Range_le. rewrite Hnv. apply maxLoop_by.
Qed.

Lemma is_version_parse (c : string) :
  is_version c = true -> exists y, parse c = Some y.
Proof.
  unfold is_version. destruct (parse c) as [y|]; [now exists y|discriminate].
Qed.

Lemma stepA_result (st : normalized) (versions : list string) (nv : SemVer) :
  parse (n_version st) = Some nv ->
  Forall (fun v => is_version v = true) versions ->
  match stepA st versions with
  | Returned None =>
      Forall (fun c => forall y, parse c = Some y -> lte y nv = false) versions
  | Returned (Some m) =>
      exists c y, In c versions /\ parse c = Some y /\ m = format y
                  /\ lte y nv = true
  | _ => False
  end.
Proof.
  intros Hnv H. rewrite (stepA_loop _ _ _ Hnv H).
  destruct (filteredVersions_map versions H) as [_ Hf].
  destruct (maxLoopBy_returns (fun x => lte x nv) _ Hf None) as [r Hr].
  rewrite Hr. pose proof (maxLoopBy_member _ _ _ _ Hr) as Hm.
  destruct r as [m|].
  - destruct Hm as [(x & Hin & Hp & Ht)|[x0 Hx0]]; [|discriminate].
    apply in_map_iff in Hin as (c & <- & Hin).
    rewrite Forall_forall in H.
    destruct (is_version_parse c (H c Hin)) as [y Hy].
    destruct (parse_stripped c y Hy) as [Hs Hps].
    exists c, y. repeat split; try assumption.
    rewrite Hps in Hp. injection Hp as <-. now rewrite lte_stripped in Ht.
  - destruct Hm as [_ Hall]. rewrite Forall_forall in Hall.
    apply Forall_forall. intros c Hin y Hy.
    destruct (parse_stripped c y Hy) as [_ Hps].
    rewrite <- (lte_stripped y nv).
    apply (Hall (stripped c)); [|assumption].
    apply in_map_iff. now exists c.
Qed.

Lemma plain_stripped (versions : list string) :
  Forall (fun v => is_plain_version v = true) versions ->
  Forall (fun v => is_plain_version v = true) (map stripped versions).
Proof.
  intros H. apply Forall_map. apply Forall_forall.
  rewrite Forall_forall in H. intros c Hin. specialize (H c Hin).
  unfold is_plain_version in *. destruct (parse c) as [y|] eqn:Hy; [|discriminate].
  destruct (parse_stripped c y Hy) as [_ ->]. exact H.
Qed.

Lemma plain_is_version (versions : list string) :
  Forall (fun v => is_plain_version v = true) versions ->
  Forall (fun v => is_version v = true) versions.
Proof.
  apply Forall_impl. intros c. unfold is_plain_version, is_version.
  now destruct (parse c).
Qed.

Lemma stepA_greatest (st : normalized) (versions : list string)
    (nv : SemVer) (m : string) :
  parse (n_version st) = Some nv ->
  Forall (fun v => is_plain_version v = true) versions ->
  stepA st versions = Returned (Some m) ->
  exists c y,
    In c versions /\ parse c = Some y /\ m = format y /\ lte y nv = true
    /\ Forall (fun c' => forall y', parse c' = Some y' -> lte y' nv = true ->
                                    lte y' y = true) versions.
Proof.
  intros Hnv Hpl Hres.
  pose proof (plain_is_version _ Hpl) as H.
  pose proof (stepA_result st versions nv Hnv H) as Hm.
  rewrite Hres in Hm. destruct Hm as (c & y & Hin & Hy & -> & Hle).
  exists c, y. repeat split; try assumption.
  rewrite (stepA_loop _ _ _ Hnv H) in Hres.
  destruct (parse_stripped c y Hy) as [Hs Hps]. rewrite <- Hs in Hres.
  destruct (maxLoopBy_max _ _ None (stripped c) _ (plain_stripped _ Hpl)
              ltac:(discriminate) Hres Hps) as (_ & Hall & _).
  rewrite Forall_forall in Hall. apply Forall_forall.
  intros c' Hin' y' Hy' Hle'.
  destruct (parse_stripped c' y' Hy') as [_ Hps'].
  rewrite <- (lte_stripped y' y), <- (lte_stripped_r _ y).
  apply (Hall (stripped c')).
  - apply in_map_iff. now exists c'.
  - assumption.
  - now rewrite lte_stripped.
Qed.

(** X3. On a catalog of plain versions the primary match is a maximum:
    every entry that is not above the normalized version is not above the
    entry that was returned. *)
Theorem stepA_maximum (st : normalized) (versions : list string)
    (nv : SemVer) (m : string) :
  parse (n_version st) = Some nv ->
  Forall (fun v => is_plain_version v = true) versions ->
  stepA st versions = Returned (Some m) ->
  exists c y,
    In c versions /\ parse c = Some y /\ m = format y /\ lte y nv = true
    /\ Forall (fun c' => forall y', parse c' = Some y' -> lte y' nv = true ->
                                    lte y' y = true) versions.
Proof.
  exact (stepA_greatest st versions nv m).
Qed.

Lemma stepA_maximum_witness :
  exists c y,
    In c ["0.5.0"; "v0.5.1+3"; "0.6.0"] /\ parse c = Some y
    /\ "0.5.1" = format y /\ lte y (mkSemVer 0 5 1 [] []) = true
    /\ Forall (fun c' => forall y', parse c' = Some y' ->
                                    lte y' (mkSemVer 0 5 1 [] []) = true ->
                                    lte y' y = true)
         ["0.5.0"; "v0.5.1+3"; "0.6.0"].
Proof.
  exact (stepA_maximum (mkNormalized "0.5.1" None (Some TypeError))
           ["0.5.0"; "v0.5.1+3"; "0.6.0"] (mkSemVer 0 5 1 [] []) "0.5.1"
           eq_refl ltac:(repeat constructor) eq_refl).
Defined.

Lemma plain_of_entry (versions : list string) (c : string) (y : SemVer) :
  Forall (fun v => is_plain_version v = true) versions ->
  In c versions -> parse c = Some y -> plain y = true.
Proof.
  intros H Hin Hy. rewrite Forall_forall in H. specialize (H c Hin).
  unfold is_plain_version in H. now rewrite Hy in H.
Qed.

Lemma stepA_perm (st : normalized) (versions versions' : list string) :
  Permutation versions versions' ->
  Forall (fun v => is_plain_version v = true) versions ->
  stepA st versions = stepA st versions'.
Proof.
  intros Hperm Hpl.
  assert (Hpl' : Forall (fun v => is_plain_version v = true) versions')
    by (apply (Permutation_Forall Hperm); assumption).
  pose proof (plain_is_version _ Hpl) as H.
  pose proof (plain_is_version _ Hpl') as H'.
  destruct (parse (n_version st)) as [nv|] eqn:Hnv.
  - pose proof (stepA_result st versions nv Hnv H) as Hm.
    pose proof (stepA_result st versions' nv Hnv H') as Hm'.
    destruct (stepA st versions) as [[m|]| |] eqn:E; try contradiction;
      destruct (stepA st versions') as [[m'|]| |] eqn:E'; try contradiction.
    + destruct (stepA_greatest st versions nv m Hnv Hpl E)
        as (c & y & Hin & Hy & -> & Hle & Hmax).
      destruct (stepA_greatest st versions' nv m' Hnv Hpl' E')
        as (c' & y' & Hin' & Hy' & -> & Hle' & Hmax').
      rewrite Forall_forall in Hmax, Hmax'.
      do 2 f_equal. apply format_key, lte_antisym.
      * exact (plain_of_entry _ _ _ Hpl Hin Hy).
      * exact (plain_of_entry _ _ _ Hpl' Hin' Hy').
      * apply (Hmax' c); [|assumption..].
        exact (Permutation_in _ Hperm Hin).
      * apply (Hmax c'); [|assumption..].
        exact (Permutation_in _ (Permutation_sym Hperm) Hin').
    + destruct Hm as (c & y & Hin & Hy & _ & Hle).
      rewrite Forall_forall in Hm'.
      rewrite (Hm' c (Permutation_in _ Hperm Hin) y Hy) in Hle. discriminate.
    + destruct Hm' as (c & y & Hin & Hy & _ & Hle).
      rewrite Forall_forall in Hm.
      rewrite (Hm c (Permutation_in _ (Permutation_sym Hperm) Hin) y Hy) in Hle.
      discriminate.
    + reflexivity.
  - unfold stepA.
    destruct (filteredVersions_map versions H) as [-> _].
    destruct (filteredVersions_map versions' H') as [-> _]. cbn [bind].
    unfold maxSatisfying_le, Range_le. rewrite Hnv.
    destruct versions as [|c l].
    + apply Permutation_nil in Hperm. now subst.
    + destruct versions' as [|c' l']; [|reflexivity].
      apply Permutation_sym, Permutation_nil in Hperm. discriminate.
Qed.

(** X4. The primary match does not depend on the order in which the
    directory lists the versions: on two catalogs of plain versions that
    are permutations of each other the primary search returns the same. *)
Theorem stepA_order_independent (st : normalized) (versions versions' : list string) :
  Permutation versions versions' ->
  Forall (fun v => is_plain_version v = true) versions ->
  stepA st versions = stepA st versions'.
Proof.
  exact (stepA_perm st versions versions').
Qed.

Lemma stepA_order_independent_witness :
  stepA (mkNormalized "0.5.1" None (Some TypeError)) ["0.5.0"; "v0.5.1+3"; "0.6.0"]
  = stepA (mkNormalized "0.5.1" None (Some TypeError)) ["0.6.0"; "v0.5.1+3"; "0.5.0"].
Proof.
  apply (stepA_order_independent (mkNormalized "0.5.1" None (Some TypeError))
           ["0.5.0"; "v0.5.1+3"; "0.6.0"] ["0.6.0"; "v0.5.1+3"; "0.5.0"]).
  - apply perm_trans with ["0.6.0"; "0.5.0"; "v0.5.1+3"].
    + apply perm_trans with ["0.5.0"; "0.6.0"; "v0.5.1+3"].
      * apply perm_skip, perm_swap.
      * apply perm_swap.
    + apply perm_skip, perm_swap.
  - repeat constructor.
Defined.

(** ** [getLatestProtoVersion] *)

Lemma maxSatisfying_gt_member (versions : list string) (lowest : string)
    (lv : SemVer) :
  parse lowest = Some lv ->
  Forall (fun v => is_version v = true) versions ->
  match maxSatisfying_gt versions lowest with
  | Returned None =>
      Forall (fun c => forall y, parse c = Some y -> gt y lv = false) versions
  | Returned (Some m) =>
      exists x, In m versions /\ parse m = Some x /\ gt x lv = true
  | _ => False
  end.
Proof.
  intros Hlv H. unfold maxSatisfying_gt. rewrite Hlv.
  destruct (maxLoopBy_returns (fun x => gt x lv) _ H None) as [r Hr].
  rewrite Hr. pose proof (maxLoopBy_member _ _ _ _ Hr) as Hm.
  destruct r as [m|].
  - destruct Hm as [Hm|[x0 Hx0]]; [exact Hm|discriminate].
  - now destruct Hm.
Qed.

Lemma maxSatisfying_gt_maximum (versions : list string) (lowest : string)
    (lv : SemVer) (m : string) :
  parse lowest = Some lv ->
  Forall (fun v => is_plain_version v = true) versions ->
  maxSatisfying_gt versions lowest = Returned (Some m) ->
  exists x,
    In m versions /\ parse m = Some x /\ gt x lv = true
    /\ Forall (fun c => forall y, parse c = Some y -> gt y lv = true ->
                                  lte y x = true) versions.
Proof.
  intros Hlv Hpl Hres.
  pose proof (maxSatisfying_gt_member versions lowest lv Hlv
                (plain_is_version _ Hpl)) as Hm.
  rewrite Hres in Hm. destruct Hm as (x & Hin & Hx & Hgt).
  exists x. repeat split; try assumption.
  unfold maxSatisfying_gt in Hres. rewrite Hlv in Hres.
  now destruct (maxLoopBy_max _ _ None m x Hpl ltac:(discriminate) Hres Hx)
    as (_ & Hall & _).
Qed.

(** X5. On a directory whose entries are all versions, both revisions of
    [getLatestProtoVersion] return an entry of the directory as it is, one
    that is strictly above the lowest supported version (0.4.2, and
    0.5.1-beta in the earlier revision); they return no version exactly
    when no entry is strictly above it. *)
Theorem latest_member (versions : list string) :
  Forall (fun v => is_version v = true) versions ->
  match getLatestProtoVersion versions with
  | Returned None =>
      Forall (fun c => forall y, parse c = Some y ->
                                 gt y (mkSemVer 0 4 2 [] []) = false) versions
  | Returned (Some m) =>
      exists x, In m versions /\ parse m = Some x
                /\ gt x (mkSemVer 0 4 2 [] []) = true
  | _ => False
  end
  /\ match Earlier.getLatestProtoVersion versions with
     | Returned None =>
         Forall (fun c => forall y, parse c = Some y ->
                                    gt y (mkSemVer 0 5 1 [IdStr "beta"] []) = false)
           versions
     | Returned (Some m) =>
         exists x, In m versions /\ parse m = Some x
                   /\ gt x (mkSemVer 0 5 1 [IdStr "beta"] []) = true
     | _ => False
     end.
Proof.
  intros H. split.
  - exact (maxSatisfying_gt_member versions GRPC_LOWEST_VERSION _ eq_refl H).
  - exact (maxSatisfying_gt_member versions Earlier.GRPC_LOWEST_VERSION _ eq_refl H).
Qed.

Lemma latest_member_witness :
  (exists x, In "v0.5.2+7" ["0.4.2"; "v0.5.2+7"; "0.5.1-beta"]
             /\ parse "v0.5.2+7" = Some x /\ gt x (mkSemVer 0 4 2 [] []) = true)
  /\ Forall (fun c => forall y, parse c = Some y ->
                                gt y (mkSemVer 0 5 1 [IdStr "beta"] []) = false)
       ["0.4.2"; "0.5.1-beta"].
Proof.
  split.
  - exact (proj1 (latest_member ["0.4.2"; "v0.5.2+7"; "0.5.1-beta"]
                    ltac:(repeat constructor))).
  - exact (proj2 (latest_member ["0.4.2"; "0.5.1-beta"]
                    ltac:(repeat constructor))).
Defined.

(** X6. On a directory of plain versions the version that
    [getLatestProtoVersion] returns is a maximum: no entry above the lowest
    supported version is above it (in both revisions). *)
Theorem latest_maximum (versions : list string) :
  Forall (fun v => is_plain_version v = true) versions ->
  (forall m, getLatestProtoVersion versions = Returned (Some m) ->
     exists x,
       In m versions /\ parse m = Some x
       /\ Forall (fun c => forall y, parse c = Some y ->
                                     gt y (mkSemVer 0 4 2 [] []) = true ->
                                     lte y x = true) versions)
  /\ (forall m, Earlier.getLatestProtoVersion versions = Returned (Some m) ->
        exists x,
          In m versions /\ parse m = Some x
          /\ Forall (fun c => forall y, parse c = Some y ->
                                        gt y (mkSemVer 0 5 1 [IdStr "beta"] []) = true ->
                                        lte y x = true) versions).
Proof.
  intros Hpl. split; intros m Hres.
  - destruct (maxSatisfying_gt_maximum versions GRPC_LOWEST_VERSION _ m
                eq_refl Hpl Hres) as (x & Hin & Hx & _ & Hall).
    now exists x.
  - destruct (maxSatisfying_gt_maximum versions Earlier.GRPC_LOWEST_VERSION _ m
                eq_refl Hpl Hres) as (x & Hin & Hx & _ & Hall).
    now exists x.
Qed.

Lemma latest_maximum_witness :
  exists x,
    In "0.5.2-rc3" ["0.4.2"; "0.5.2-rc3"; "0.5.1"] /\ parse "0.5.2-rc3" = Some x
    /\ Forall (fun c => forall y, parse c = Some y ->
                                  gt y (mkSemVer 0 4 2 [] []) = true ->
                                  lte y x = true)
         ["0.4.2"; "0.5.2-rc3"; "0.5.1"].
Proof.
  exact (proj1 (latest_maximum ["0.4.2"; "0.5.2-rc3"; "0.5.1"]
                  ltac:(repeat constructor)) "0.5.2-rc3" eq_refl).
Defined.

(** ** [closestLower] on any numbers *)

Lemma fold_pick {A : Type} (pick : A -> A -> bool) (l : list A) (a : A) :
  In (fold_left (fun prev curr => if pick curr prev then curr else prev) l a)
     (a :: l).
Proof.
  revert a. induction l as [|x l IH]; intros a; simpl; [now left|].
  destruct (IH (if pick x a then x else a)) as [H|H]; [|now right; right].
  rewrite <- H. destruct (pick x a); [right|]; now left.
Qed.

Lemma closestLower_pick (arr : list number) (val : number) :
  match closestLower arr val with
  | None => Forall (fun v => num_le v val = false) arr
  | Some m => In m arr /\ num_le m val = true
  end.
Proof.
  unfold closestLower.
  destruct (filter (fun v => num_le v val) arr) as [|first rest] eqn:E.
  - apply Forall_forall. intros v Hin.
    destruct (num_le v val) eqn:Hv; [|reflexivity].
    assert (H : In v (filter (fun v => num_le v val) arr))
      by (apply filter_In; now split).
    rewrite E in H. contradiction.
  - apply (proj1 (filter_In (fun v => num_le v val) _ arr)). rewrite E.
    apply (fold_pick (fun curr prev =>
                        num_lt (abs_diff curr val) (abs_diff prev val))).
Qed.

(** X7. Whatever the numbers ([NaN] and integers beyond 2^53 included),
    [closestLower] returns an entry of the list that is [<=] the target, and
    returns [null] exactly when no entry is; in particular on an empty list
    and on a target that is [NaN]. *)
Theorem closestLower_member (arr : list number) (val : number) :
  match closestLower arr val with
  | None => Forall (fun v => num_le v val = false) arr
  | Some m => In m arr /\ num_le m val = true
  end
  /\ closestLower [] val = None
  /\ closestLower arr NaN = None.
Proof.
  split; [apply closestLower_pick|]. split; [reflexivity|].
  pose proof (closestLower_pick arr NaN) as H.
  destruct (closestLower arr NaN) as [m|]; [|reflexivity].
  destruct H as [_ H]. now destruct m.
Qed.

Lemma closestLower_perm (zs zs' : list Z) (target : Z) :
  Permutation zs zs' -> safe target -> Forall safe zs ->
  closestLower (map Num zs) (Num target) = closestLower (map Num zs') (Num target).
Proof.
  intros Hperm Ht Hzs.
  assert (Hzs' : Forall safe zs') by (apply (Permutation_Forall Hperm); assumption).
  pose proof (closestLower_spec zs target Ht Hzs) as H.
  pose proof (closestLower_spec zs' target Ht Hzs') as H'.
  destruct (closestLower (map Num zs) (Num target)) as [m|];
    destruct (closestLower (map Num zs') (Num target)) as [m'|].
  - destruct H as (z & -> & Hin & Hle & Hmax).
    destruct H' as (z' & -> & Hin' & Hle' & Hmax').
    rewrite Forall_forall in Hmax, Hmax'.
    pose proof (Hmax z' (Permutation_in _ (Permutation_sym Hperm) Hin') Hle').
    pose proof (Hmax' z (Permutation_in _ Hperm Hin) Hle).
    do 2 f_equal. lia.
  - destruct H as (z & -> & Hin & Hle & _).
    rewrite Forall_forall in H'.
    pose proof (H' z (Permutation_in _ Hperm Hin)). lia.
  - destruct H' as (z' & -> & Hin' & Hle' & _).
    rewrite Forall_forall in H.
    pose proof (H z' (Permutation_in _ (Permutation_sym Hperm) Hin')). lia.
  - reflexivity.
Qed.

(** X8. On build numbers that doubles hold exactly, the number that
    [closestLower] returns does not depend on the order of the list. *)
Theorem closestLower_order_independent (zs zs' : list Z) (target : Z) :
  Permutation zs zs' -> safe target -> Forall safe zs ->
  closestLower (map Num zs) (Num target) = closestLower (map Num zs') (Num target).
Proof.
  exact (closestLower_perm zs zs' target).
Qed.

Lemma closestLower_order_independent_witness :
  closestLower (map Num [1; 3; 7; 10]%Z) (Num 8)
  = closestLower (map Num [3; 1; 7; 10]%Z) (Num 8).
Proof.
  apply (closestLower_order_independent [1; 3; 7; 10]%Z [3; 1; 7; 10]%Z 8%Z).
  - apply perm_swap.
  - unfold safe. lia.
  - repeat constructor; unfold safe; lia.
Defined.

(** ** What normalization leaves when it succeeds *)

Lemma parse_release (c : string) (p0 : SemVer) (bb : list bident) :
  parse c = Some p0 ->
  parse (format (mkSemVer (major p0) (minor p0) (patch p0) [] bb))
  = Some (mkSemVer (major p0) (minor p0) (patch p0) [] []).
Proof.
  intros H.
  destruct (parse_inv _ _ H)
    as (main & bld & core & pre & M & m & p & pres & blds
        & Hlen & Ec1 & Ec2 & Esp & _ & _ & (HM & Hm & Hp)
        & (LM & Lm & Lp) & ->).
  assert (Hcore : core = M ++ "." ++ m ++ "." ++ p)
    by (rewrite <- (join_split "." core), Esp; reflexivity).
  assert (Hf : format (mkSemVer (digits_value M) (digits_value m)
                         (digits_value p) [] bb) = core).
  { unfold format. cbn [major minor patch prerelease].
    rewrite !decimal_digits_value by assumption.
    now rewrite Hcore, app_nil_str. }
  cbn [major minor patch]. rewrite Hf.
  destruct (cut_spec _ _ _ _ Ec1) as [Hmain _].
  destruct (cut_spec _ _ _ _ Ec2) as [Hdash Emain].
  assert (Hplus : str_all (other_than "+") core = true).
  { rewrite Emain in Hmain. destruct pre; [|assumption].
    rewrite str_all_app in Hmain. now apply andb_true_iff in Hmain as [Hc _]. }
  pose proof (cut_length "+" (strip_v c)) as L1.
  pose proof (cut_length "-" main) as L2.
  pose proof (strip_v_length c) as L3.
  rewrite Ec1 in L1. rewrite Ec2 in L2. simpl fst in L1, L2.
  unfold parse.
  assert (Hl : (MAX_LENGTH <? String.length core)%nat = false)
    by (apply Nat.ltb_ge; lia).
  assert (Hstrip : strip_v core = core)
    by (rewrite Hcore; now apply numeric_first_not_v).
  rewrite Hl, Hstrip, (cut_no_sep "+" core Hplus), (cut_no_sep "-" core Hdash), Esp.
  simpl ids_of. rewrite HM, Hm, Hp. simpl.
  apply N.leb_le in LM, Lm, Lp. now rewrite LM, Lm, Lp.
Qed.

Lemma retag_pieces (P : ascii -> bool) (first : string) :
  str_all P first = true ->
  Forall (fun x => str_all P x = true /\ String.eqb x "beta" = false)
    (filter (fun x => negb (String.eqb x "beta")) (split "-" first)).
Proof.
  intros H. apply Forall_forall. intros x Hx.
  apply filter_In in Hx as [Hin Hb]. apply negb_true_iff in Hb.
  split; [|assumption].
  pose proof (split_pieces P "-" first H) as Hp.
  rewrite Forall_forall in Hp. now apply Hp.
Qed.

(** X9. When the [try] block ends without a warning, [parse] is set and
    [version] is its formatted text, with no plus in it; no prerelease entry
    is [beta]; and either no build is recorded, or the prerelease is empty
    and the build is one number. *)
Theorem normalize_success (versionString : string) :
  n_warning (normalize versionString) = None ->
  exists p,
    n_parse (normalize versionString) = Some p
    /\ n_version (normalize versionString) = format p
    /\ str_all (other_than "+") (n_version (normalize versionString)) = true
    /\ forallb (fun i => negb (String.eqb (ident_text i) "beta")) (prerelease p)
       = true
    /\ (build p = [] \/ prerelease p = [] /\ exists x, build p = [BNum x]).
Proof.
  unfold normalize.
  destruct (nth_error (split " " versionString) 1) as [commitString|];
    [|discriminate].
  destruct (clean (remove_first "commit=" commitString)) as [fv|] eqn:Ec;
    [|discriminate].
  pose proof (truncated_no_plus _ _ Ec) as Hv.
  destruct (parse (join "-" (firstn 3 (split "-" fv)))) as [p0|] eqn:Ep;
    [|discriminate].
  pose proof (parse_no_plus_build _ _ Hv Ep) as Hb0.
  pose proof (parsed_prerelease_no_plus _ _ Ep) as Hpre.
  destruct (prerelease p0) as [|[n|first] rest]; try discriminate.
  intros _. cbn [n_parse n_version]. eexists. split; [reflexivity|].
  split; [reflexivity|].
  inversion Hpre as [|? ? Hfirst _]; subst. simpl in Hfirst.
  pose proof (retag_pieces _ first Hfirst) as Hpieces.
  unfold retag.
  destruct (numeric (hd "undefined"
              (filter (fun x => negb (x =? "beta")) (split "-" first)))).
  - split; [apply format_no_plus; constructor|].
    split; [reflexivity|]. right. split; [reflexivity|]. now eexists.
  - split; [|split; [|now left]].
    + apply format_no_plus. cbn [prerelease]. apply Forall_map.
      revert Hpieces. apply Forall_impl. now intros x [Hx _].
    + cbn [prerelease]. apply forallb_forall. intros i Hi.
      apply in_map_iff in Hi as (x & <- & Hx).
      rewrite Forall_forall in Hpieces. destruct (Hpieces x Hx) as [_ Hb].
      simpl. now rewrite Hb.
Qed.

Lemma normalize_success_witness :
  exists p,
    n_parse (normalize "0.5.1-beta commit=v0.5.1-beta-rc2-4-gabcdef") = Some p
    /\ n_version (normalize "0.5.1-beta commit=v0.5.1-beta-rc2-4-gabcdef") = format p
    /\ str_all (other_than "+")
         (n_version (normalize "0.5.1-beta commit=v0.5.1-beta-rc2-4-gabcdef")) = true
    /\ forallb (fun i => negb (String.eqb (ident_text i) "beta")) (prerelease p)
       = true
    /\ (build p = [] \/ prerelease p = [] /\ exists x, build p = [BNum x]).
Proof.
  apply (normalize_success "0.5.1-beta commit=v0.5.1-beta-rc2-4-gabcdef").
  vm_compute. reflexivity.
Defined.

Lemma build_recorded (versionString : string) (p : SemVer)
    (b : bident) (bs : list bident) :
  n_parse (normalize versionString) = Some p ->
  build p = b :: bs ->
  n_warning (normalize versionString) = None
  /\ prerelease p = []
  /\ (exists x, build p = [BNum x])
  /\ n_version (normalize versionString) = format p
  /\ parse (n_version (normalize versionString))
     = Some (mkSemVer (major p) (minor p) (patch p) [] []).
Proof.
  unfold normalize.
  destruct (nth_error (split " " versionString) 1) as [commitString|];
    [|discriminate].
  destruct (clean (remove_first "commit=" commitString)) as [fv|] eqn:Ec;
    [|discriminate].
  pose proof (truncated_no_plus _ _ Ec) as Hv.
  destruct (parse (join "-" (firstn 3 (split "-" fv)))) as [p0|] eqn:Ep;
    [|discriminate].
  pose proof (parse_no_plus_build _ _ Hv Ep) as Hb0.
  destruct (prerelease p0) as [|[n|first] rest]; cbn [n_parse n_version n_warning].
  - intros [= <-] Hb. congruence.
  - intros [= <-] Hb. congruence.
  - unfold retag.
    destruct (numeric (hd "undefined"
                (filter (fun x => negb (x =? "beta")) (split "-" first)))).
    + intros [= <-] _. cbn [major minor patch prerelease build].
      repeat split; [now eexists|].
      exact (parse_release _ p0 _ Ep).
    + intros [= <-] Hb. simpl in Hb. congruence.
Qed.

(** X10. When normalization records a build number, no warning was
    logged, the prerelease is empty, the build is that one number, and
    [version] is the text of the three main numbers, which is itself a
    version: the primary search then runs on a release. *)
Theorem normalize_build_is_release (versionString : string) (p : SemVer)
    (b : bident) (bs : list bident) :
  n_parse (normalize versionString) = Some p ->
  build p = b :: bs ->
  n_warning (normalize versionString) = None
  /\ prerelease p = []
  /\ (exists x, build p = [BNum x])
  /\ n_version (normalize versionString) = format p
  /\ parse (n_version (normalize versionString))
     = Some (mkSemVer (major p) (minor p) (patch p) [] []).
Proof.
  exact (build_recorded versionString p b bs).
Qed.

Lemma normalize_build_is_release_witness :
  n_warning (normalize "0.5.2-beta commit=v0.5.2-beta-3-gabcdef") = None
  /\ prerelease (mkSemVer 0 5 2 [] [BNum (Num 3)]) = []
  /\ (exists x, build (mkSemVer 0 5 2 [] [BNum (Num 3)]) = [BNum x])
  /\ n_version (normalize "0.5.2-beta commit=v0.5.2-beta-3-gabcdef")
     = format (mkSemVer 0 5 2 [] [BNum (Num 3)])
  /\ parse (n_version (normalize "0.5.2-beta commit=v0.5.2-beta-3-gabcdef"))
     = Some (mkSemVer 0 5 2 [] []).
Proof.
  apply (normalize_build_is_release "0.5.2-beta commit=v0.5.2-beta-3-gabcdef"
           (mkSemVer 0 5 2 [] [BNum (Num 3)]) (BNum (Num 3)) []);
    vm_compute; reflexivity.
Defined.

(** ** What the refinement builds a result from *)

Lemma builds_of_In (l : list string) (builds : list number) (b : number) :
  builds_of l = Returned builds -> In b builds ->
  exists v, In v l /\ build_of v = Returned b.
Proof.
  revert builds. induction l as [|v rest IH]; intros builds; simpl.
  - intros [= <-] [].
  - destruct (build_of v) as [x| |] eqn:Ev; simpl; try discriminate.
    destruct (builds_of rest) as [bs| |]; simpl; try discriminate.
    intros [= <-] [<-|Hin].
    + exists v. split; [now left|assumption].
    + destruct (IH bs eq_refl Hin) as (v' & Hv' & Hb).
      exists v'. split; [now right|assumption].
Qed.

Lemma positive_match_inv (c : option number) (z : Z) :
  positive_match c = Some z -> c = Some (Num z) /\ (0 < z)%Z.
Proof.
  destruct c as [[|z']|]; simpl; try discriminate.
  destruct (Z.ltb_spec 0 z'); [|discriminate].
  intros [= <-]. now split.
Qed.

Lemma Number_toString_inv (z : Z) (text : string) :
  Number_toString z = Some text -> text = decimal (Z.to_N z) /\ safe z.
Proof.
  unfold Number_toString, safe. change (2 ^ 53)%Z with 9007199254740992%Z.
  destruct (Z.leb_spec 0 z); [|discriminate].
  destruct (Z.ltb_spec z 9007199254740992); [|discriminate].
  intros [= <-]. split; [reflexivity|lia].
Qed.

(** The replacement at lines 238 to 247 names a candidate of the catalog. *)
Lemma refine_provenance (version : string) (p : option SemVer)
    (versions : list string) (match_ r : option string) :
  refine version p versions match_ = Returned r ->
  r = match_
  \/ exists v z p' val,
       In v versions /\ startsWith v (version ++ "+") = true
       /\ build_of v = Returned (Num z) /\ (0 < z)%Z /\ safe z
       /\ p = Some p' /\ array_number (build p') = Returned val
       /\ num_le (Num z) val = true
       /\ r = Some (version ++ "+" ++ decimal (Z.to_N z)).
Proof.
  unfold refine. destruct p as [p'|]; [|intros [= <-]; now left].
  destruct (build p') as [|b bs] eqn:Eb; [intros [= <-]; now left|].
  destruct (builds_of _) as [builds| |] eqn:Ebs; cbn [bind]; try discriminate.
  destruct builds as [|x xs]; cbn [bind positive_match];
    [intros [= <-]; now left|].
  destruct (array_number (b :: bs)) as [val| |] eqn:Ev; cbn [bind];
    try discriminate.
  destruct (positive_match (closestLower (x :: xs) val)) as [z|] eqn:Ez;
    [|intros [= <-]; now left].
  destruct (Number_toString z) as [text|] eqn:Et; [|discriminate].
  intros [= <-]. right.
  destruct (positive_match_inv _ _ Ez) as [Hc Hz].
  pose proof (closestLower_pick (x :: xs) val) as Hm. rewrite Hc in Hm.
  destruct Hm as [Hin Hle].
  destruct (builds_of_In _ _ _ Ebs Hin) as (v & Hv & Hb).
  apply filter_In in Hv as [Hv Hs].
  destruct (Number_toString_inv _ _ Et) as [-> Hsafe].
  exists v, z, p', val. rewrite Eb.
  repeat split; try assumption; apply Hsafe.
Qed.

(** ** The earlier revision of [getClosestProtoVersion] *)

Lemma fallback_alike (versionString : string) :
  match n_warning (normalize versionString) with
  | Some _ =>
      Earlier.normalize versionString
      = (n_version (normalize versionString), Some TypeError)
  | None => snd (Earlier.normalize versionString) = None
  end.
Proof.
  unfold normalize, Earlier.normalize.
  destruct (nth_error (split " " versionString) 1) as [commitString|];
    [|reflexivity].
  destruct (clean (remove_first "commit=" commitString)) as [fv|];
    [|reflexivity].
  destruct (parse (join "-" (firstn 3 (split "-" fv)))) as [p0|];
    [|reflexivity].
  destruct (prerelease p0) as [|[n|first] rest]; reflexivity.
Qed.

(** X12. The two revisions fall back alike: the later one logs a warning
    exactly when the earlier one does, and then both continue from the same
    [version] text. *)
Theorem revisions_agree_on_fallback (versionString : string) :
  match n_warning (normalize versionString) with
  | Some _ =>
      Earlier.normalize versionString
      = (n_version (normalize versionString), Some TypeError)
  | None => snd (Earlier.normalize versionString) = None
  end.
Proof.
  exact (fallback_alike versionString).
Qed.

Lemma compare_no_build (a b : SemVer) :
  compare (mkSemVer (major a) (minor a) (patch a) (prerelease a) [])
          (mkSemVer (major b) (minor b) (patch b) (prerelease b) [])
  = compare a b.
Proof. reflexivity. Qed.

(** The loop on the stripped catalog makes the choices of the loop on the
    catalog itself. *)
Lemma maxLoopBy_stripped (nv : SemVer) (versions : list string) :
  Forall (fun v => is_version v = true) versions ->
  forall (max : option (string * SemVer)) (r : option string),
  maxLoopBy (fun x => lte x nv) versions max = Returned r ->
  maxLoopBy (fun x => lte x nv) (map stripped versions)
    (option_map (fun vx => (stripped (fst vx),
                            mkSemVer (major (snd vx)) (minor (snd vx))
                              (patch (snd vx)) (prerelease (snd vx)) []))
       max)
  = Returned (option_map stripped r).
Proof.
  induction 1 as [|v rest Hv Hrest IH]; intros max r; simpl.
  - intros [= <-]. now destruct max as [[v0 x0]|].
  - destruct (is_version_parse v Hv) as [x Hx].
    destruct (parse_stripped v x Hx) as [_ Hps].
    rewrite (version_nonempty _ _ Hx), (version_nonempty _ _ Hps), Hx, Hps.
    simpl. rewrite lte_stripped.
    destruct (lte x nv); [|apply IH].
    destruct max as [[v0 maxSV]|]; simpl.
    + rewrite compare_no_build.
      destruct (compare maxSV x); intros H;
        first [exact (IH (Some (v, x)) r H) | exact (IH (Some (v0, maxSV)) r H)].
    + intros H. exact (IH (Some (v, x)) r H).
Qed.

(** X14. When normalization logged a warning (so from the same [version]
    text, and with no build number), the later revision chooses the entry
    that the earlier one chooses, on a catalog of versions: it returns that
    entry without its optional [v] and without its build. *)
Theorem revisions_same_choice (versionString : string) (versions : list string)
    (e : exn) :
  n_warning (normalize versionString) = Some e ->
  Forall (fun v => is_version v = true) versions ->
  getClosestProtoVersion versionString versions
  = (r <- Earlier.getClosestProtoVersion versionString versions ;;
     Returned (option_map stripped r)).
Proof.
  intros Hw H.
  pose proof (fallback_alike versionString) as Hagree.
  pose proof (normalize_warning versionString) as Hnb.
  rewrite Hw in Hagree, Hnb. destruct Hnb as [Hnb _].
  unfold getClosestProtoVersion, Earlier.getClosestProtoVersion, select.
  rewrite Hagree. cbn [fst].
  destruct (filteredVersions_map versions H) as [-> _]. cbn [bind].
  unfold maxSatisfying_le, Range_le.
  destruct (parse (n_version (normalize versionString))) as [nv|].
  - rewrite !maxLoop_by.
    destruct (maxLoopBy_returns (fun x => lte x nv) versions H None) as [r Hr].
    pose proof (maxLoopBy_stripped nv versions H None r Hr) as Hs.
    cbn [option_map] in Hs. rewrite Hr, Hs. cbn [bind].
    now apply refine_no_build.
  - destruct versions as [|c l]; cbn [map bind]; [|reflexivity].
    now apply refine_no_build.
Qed.

Lemma revisions_same_choice_witness :
  getClosestProtoVersion "0.5.1" ["0.5.0"; "v0.5.1+3"; "0.6.0"]
  = (r <- Earlier.getClosestProtoVersion "0.5.1" ["0.5.0"; "v0.5.1+3"; "0.6.0"] ;;
     Returned (option_map stripped r)).
Proof.
  apply (revisions_same_choice "0.5.1" ["0.5.0"; "v0.5.1+3"; "0.6.0"] TypeError).
  - vm_compute. reflexivity.
  - repeat constructor.
Defined.

(** ** The exact match, and the order of the directory *)

(** X15. When the normalized version is itself an entry of a catalog of
    plain versions, the primary search returns it (as formatted text). *)
Theorem stepA_exact_match (st : normalized) (versions : list string) (nv : SemVer) :
  parse (n_version st) = Some nv ->
  Forall (fun v => is_plain_version v = true) versions ->
  In (n_version st) versions ->
  stepA st versions = Returned (Some (format nv)).
Proof.
  intros Hnv Hpl Hin.
  pose proof (stepA_result st versions nv Hnv (plain_is_version _ Hpl)) as Hm.
  destruct (stepA st versions) as [[m|]| |] eqn:E; try contradiction.
  - destruct (stepA_greatest st versions nv m Hnv Hpl E)
      as (c & y & Hc & Hy & -> & Hle & Hmax).
    rewrite Forall_forall in Hmax.
    do 2 f_equal. apply format_key, lte_antisym.
    + exact (plain_of_entry _ _ _ Hpl Hc Hy).
    + exact (plain_of_entry _ _ _ Hpl Hin Hnv).
    + assumption.
    + apply (Hmax (n_version st) Hin nv Hnv). apply lte_refl.
  - rewrite Forall_forall in Hm.
    pose proof (Hm (n_version st) Hin nv Hnv) as Hf.
    now rewrite lte_refl in Hf.
Qed.

Lemma stepA_exact_match_witness :
  stepA (mkNormalized "0.5.1-beta" None (Some TypeError))
    ["0.5.0"; "0.5.1-beta"; "0.5.1-alpha"; "0.6.0"]
  = Returned (Some (format (mkSemVer 0 5 1 [IdStr "beta"] []))).
Proof.
  apply (stepA_exact_match (mkNormalized "0.5.1-beta" None (Some TypeError))
           ["0.5.0"; "0.5.1-beta"; "0.5.1-alpha"; "0.6.0"]
           (mkSemVer 0 5 1 [IdStr "beta"] [])).
  - reflexivity.
  - repeat constructor.
  - right. now left.
Defined.

Lemma filter_perm {A : Type} (f : A -> bool) (l l' : list A) :
  Permutation l l' -> Permutation (filter f l) (filter f l').
Proof.
  induction 1 as [|x l l' _ IH|x y l|l l' l'' _ IH1 _ IH2]; simpl.
  - constructor.
  - destruct (f x); [now constructor|assumption].
  - destruct (f x), (f y); try apply Permutation_refl. apply perm_swap.
  - now apply perm_trans with (filter f l').
Qed.

Lemma builds_of_perm (l l' : list string) :
  Permutation l l' ->
  forall builds, builds_of l = Returned builds ->
  exists builds', builds_of l' = Returned builds' /\ Permutation builds builds'.
Proof.
  induction 1 as [|x l l' _ IH|x y l|l l' l'' _ IH1 _ IH2]; intros builds; simpl.
  - intros [= <-]. now exists [].
  - destruct (build_of x) as [b| |]; simpl; try discriminate.
    destruct (builds_of l) as [bs| |]; simpl; try discriminate.
    intros [= <-]. destruct (IH bs eq_refl) as (bs' & -> & Hp).
    exists (b :: bs'). split; [reflexivity|now constructor].
  - destruct (build_of y) as [b| |]; simpl; try discriminate.
    destruct (build_of x) as [a| |]; simpl; try discriminate.
    destruct (builds_of l) as [bs| |]; simpl; try discriminate.
    intros [= <-]. exists (a :: b :: bs). split; [reflexivity|apply perm_swap].
  - intros H. destruct (IH1 _ H) as (b1 & H1 & P1).
    destruct (IH2 _ H1) as (b2 & H2 & P2).
    exists b2. split; [assumption|now apply perm_trans with b1].
Qed.

Lemma refine_perm (version : string) (p : SemVer) (versions versions' : list string)
    (match_ : option string) (zs : list Z) (target : Z) :
  Permutation versions versions' ->
  builds_of (matchVersions version versions) = Returned (map Num zs) ->
  Forall safe zs ->
  array_number (build p) = Returned (Num target) -> safe target ->
  refine version (Some p) versions match_
  = refine version (Some p) versions' match_.
Proof.
  intros Hperm Hb Hzs Hv Ht.
  destruct (builds_of_perm _ _ (filter_perm _ _ _ Hperm) _ Hb)
    as (builds' & Hb' & Hp).
  destruct (Permutation_map_inv _ _ (Permutation_sym Hp)) as (zs' & -> & Hp').
  rewrite (refine_closest version p versions match_ _ _ Hb Hv).
  rewrite (refine_closest version p versions' match_ _ _ Hb' Hv).
  now rewrite (closestLower_perm zs zs' target Hp' Ht Hzs).
Qed.

Lemma select_stepA (st : normalized) (versions : list string) :
  select st versions
  = (match_ <- stepA st versions ;;
     refine (n_version st) (n_parse st) versions match_).
Proof.
  unfold select, stepA.
  destruct (filteredVersions versions) as [filtered| |]; reflexivity.
Qed.

(** X16. The result of [getClosestProtoVersion] does not depend on the
    order in which the directory lists the versions, when they are plain
    versions and, if a build number was recorded, that number and the build
    numbers of the candidates are integers that doubles hold exactly. *)
Theorem closest_order_independent (versionString : string)
    (versions versions' : list string) :
  Permutation versions versions' ->
  Forall (fun v => is_plain_version v = true) versions ->
  (forall p b bs,
     n_parse (normalize versionString) = Some p -> build p = b :: bs ->
     exists zs target,
       builds_of (matchVersions (n_version (normalize versionString)) versions)
       = Returned (map Num zs)
       /\ Forall safe zs
       /\ array_number (build p) = Returned (Num target) /\ safe target) ->
  getClosestProtoVersion versionString versions
  = getClosestProtoVersion versionString versions'.
Proof.
  intros Hperm Hpl Hbuilds. unfold getClosestProtoVersion.
  rewrite !select_stepA.
  rewrite <- (stepA_perm _ _ _ Hperm Hpl).
  destruct (stepA (normalize versionString) versions) as [match_| |];
    cbn [bind]; try reflexivity.
  destruct (n_parse (normalize versionString)) as [p|] eqn:Ep; [|reflexivity].
  destruct (build p) as [|b bs] eqn:Eb.
  - unfold refine. now rewrite Eb.
  - destruct (Hbuilds p b bs eq_refl Eb) as (zs & target & Hb & Hzs & Hv & Ht).
    now apply (refine_perm _ p versions versions' match_ zs target).
Qed.

Lemma closest_order_independent_witness :
  getClosestProtoVersion "0.5.2-beta commit=v0.5.2-beta-8-gabcdef"
    ["0.5.2+1"; "0.5.2+7"; "0.5.1"]
  = getClosestProtoVersion "0.5.2-beta commit=v0.5.2-beta-8-gabcdef"
      ["0.5.2+7"; "0.5.2+1"; "0.5.1"].
Proof.
  apply (closest_order_independent "0.5.2-beta commit=v0.5.2-beta-8-gabcdef"
           ["0.5.2+1"; "0.5.2+7"; "0.5.1"] ["0.5.2+7"; "0.5.2+1"; "0.5.1"]).
  - apply perm_swap.
  - repeat constructor.
  - intros p b bs Hp Hb. exists [1; 7]%Z, 8%Z.
    vm_compute in Hp. injection Hp as <-.
    split; [vm_compute; reflexivity|].
    split; [repeat constructor; unfold safe; lia|].
    split; [reflexivity|unfold safe; lia].
Defined.

(** ** Normalizing a normalized version *)

Lemma format_chars (P : ascii -> bool) (q : SemVer) :
  (forall c, is_digit c = true -> P c = true) ->
  P "."%char = true -> P "-"%char = true ->
  Forall (fun i => str_all P (ident_text i) = true) (prerelease q) ->
  str_all P (format q) = true.
Proof.
  intros Hd Hdot Hdash H. unfold format.
  assert (Hn : forall n, str_all P (decimal n) = true)
    by (intros n; apply (str_all_impl is_digit); [exact Hd|apply decimal_digits]).
  assert (Hj : str_all P (join "." (map ident_text (prerelease q))) = true).
  { apply str_all_join; [simpl; now rewrite Hdot|]. apply Forall_map. exact H. }
  destruct (prerelease q) as [|i l]; cbv iota;
    rewrite !str_all_app, !Hn, ?Hj; simpl; rewrite ?Hdot, ?Hdash; reflexivity.
Qed.

Lemma parsed_prerelease_chars (P : ascii -> bool) (s : string) (q : SemVer) :
  (forall c, is_idchar c = true -> P c = true) ->
  parse s = Some q ->
  Forall (fun i => str_all P (ident_text i) = true) (prerelease q).
Proof.
  intros HP H.
  destruct (parse_inv _ _ H)
    as (main & bld & core & pre & M & m1 & p & pres & blds
        & _ & _ & _ & _ & Epre & _ & _ & _ & ->).
  simpl. destruct (ids_of_spec _ _ _ Epre) as [Hall _].
  apply Forall_map, Forall_forall. intros id Hid.
  rewrite forallb_forall in Hall.
  rewrite (ident_text_mk_ident _ (Hall id Hid)).
  apply (str_all_impl is_idchar); [exact HP|].
  now apply prerelease_id_idchars, Hall.
Qed.

Lemma idchar_not_space (c : ascii) : is_idchar c = true -> other_than " " c = true.
Proof.
  intros H. apply verchar_not_space. now apply idchar_is_verchar.
Qed.

Lemma format_parsed_no_space (s : string) (q : SemVer) :
  parse s = Some q -> str_all (other_than " ") (format q) = true.
Proof.
  intros H. apply format_chars; try reflexivity.
  - intros c Hc. now apply idchar_not_space, digit_is_idchar.
  - exact (parsed_prerelease_chars _ _ _ idchar_not_space H).
Qed.

Lemma normalize_version_no_space (versionString : string) :
  str_all (other_than " ") (n_version (normalize versionString)) = true.
Proof.
  assert (Hfirst : str_all (other_than " ")
                     (hd EmptyString (split " " versionString)) = true).
  { pose proof (split_pieces_no_sep " " versionString) as H.
    destruct (split " " versionString); [reflexivity|].
    now inversion H. }
  unfold normalize.
  destruct (nth_error (split " " versionString) 1) as [commitString|];
    [|exact Hfirst].
  destruct (clean (remove_first "commit=" commitString)) as [fv|] eqn:Ec;
    [|exact Hfirst].
  destruct (clean_inv _ _ Ec) as (q & Hq & ->).
  assert (Htr : str_all (other_than " ")
                  (join "-" (firstn 3 (split "-" (format q)))) = true).
  { apply str_all_join; [reflexivity|].
    apply Forall_firstn_keeps, split_pieces.
    exact (format_parsed_no_space _ _ Hq). }
  destruct (parse (join "-" (firstn 3 (split "-" (format q))))) as [p0|] eqn:Ep;
    [|exact Htr].
  pose proof (parsed_prerelease_chars _ _ _ idchar_not_space Ep) as Hpre.
  destruct (prerelease p0) as [|[n|first] rest]; try exact Htr.
  cbn [n_version]. inversion Hpre as [|? ? Hf _]; subst. simpl in Hf.
  pose proof (retag_pieces _ first Hf) as Hpieces.
  apply format_chars; try reflexivity.
  - intros c Hc. now apply idchar_not_space, digit_is_idchar.
  - unfold retag.
    destruct (numeric (hd "undefined"
                (filter (fun x => negb (x =? "beta")) (split "-" first))));
      cbn [prerelease]; [constructor|].
    apply Forall_map. revert Hpieces. apply Forall_impl. now intros x [Hx _].
Qed.

(** X17. Normalization is idempotent on its result: the normalized version
    has no space in it, so normalizing it again finds no commit token and
    leaves the text as it is, with no build number. *)
Theorem normalize_idempotent (versionString : string) :
  normalize (n_version (normalize versionString))
  = mkNormalized (n_version (normalize versionString)) None (Some TypeError).
Proof. apply normalize_no_space, normalize_version_no_space. Qed.

(** ** The exact build, and the maximum of the earlier revision *)

(** X19. When a build number was recorded and the catalog, all versions,
    has a candidate with exactly that build number (positive, and the build
    numbers of the candidates being integers that doubles hold exactly),
    [getClosestProtoVersion] returns the normalized version with that build
    number, whatever the primary search found. *)
Theorem closest_exact_build (versionString : string) (versions : list string)
    (p : SemVer) (zs : list Z) (target : Z) :
  n_parse (normalize versionString) = Some p ->
  build p = [BNum (Num target)] ->
  safe target -> (0 < target)%Z ->
  Forall (fun v => is_version v = true) versions ->
  builds_of (matchVersions (n_version (normalize versionString)) versions)
  = Returned (map Num zs) ->
  Forall safe zs -> In target zs ->
  getClosestProtoVersion versionString versions
  = Returned (Some (n_version (normalize versionString) ++ "+"
                    ++ decimal (Z.to_N target))).
Proof.
  intros Hp Hb Ht Hpos Hall Hbs Hzs Hin.
  destruct (build_recorded versionString p _ _ Hp Hb) as (_ & _ & _ & _ & Hnv).
  unfold getClosestProtoVersion. rewrite select_stepA.
  pose proof (stepA_result (normalize versionString) versions _ Hnv Hall) as Hs.
  assert (Hv : array_number (build p) = Returned (Num target)) by now rewrite Hb.
  assert (Hr : forall match_,
             refine (n_version (normalize versionString)) (Some p) versions match_
             = Returned (Some (n_version (normalize versionString) ++ "+"
                               ++ decimal (Z.to_N target)))).
  { intros match_. rewrite (refine_closest _ p versions match_ _ _ Hbs Hv), Hb.
    pose proof (closestLower_spec zs target Ht Hzs) as Hc.
    destruct (closestLower (map Num zs) (Num target)) as [m|].
    - destruct Hc as (z & -> & Hz & Hle & Hmax).
      rewrite Forall_forall in Hmax.
      pose proof (Hmax target Hin (Z.le_refl target)) as Hge.
      assert (z = target) by lia. subst z. simpl.
      destruct (Z.ltb_spec 0 target); [|lia].
      now rewrite (Number_toString_safe target Ht).
    - rewrite Forall_forall in Hc. pose proof (Hc target Hin). lia. }
  rewrite Hp.
  destruct (stepA (normalize versionString) versions) as [match_| |];
    try contradiction.
  cbn [bind]. apply Hr.
Qed.

Lemma closest_exact_build_witness :
  getClosestProtoVersion "0.5.2-beta commit=v0.5.2-beta-7-gabcdef"
    ["0.5.1"; "0.5.2+3"; "0.5.2+7"; "0.5.2+10"]
  = Returned (Some (n_version (normalize "0.5.2-beta commit=v0.5.2-beta-7-gabcdef")
                    ++ "+" ++ decimal (Z.to_N 7))).
Proof.
  apply (closest_exact_build "0.5.2-beta commit=v0.5.2-beta-7-gabcdef"
           ["0.5.1"; "0.5.2+3"; "0.5.2+7"; "0.5.2+10"]
           (mkSemVer 0 5 2 [] [BNum (Num 7)]) [3; 7; 10]%Z 7%Z).
  - vm_compute. reflexivity.
  - reflexivity.
  - unfold safe. lia.
  - lia.
  - repeat constructor.
  - vm_compute. reflexivity.
  - repeat constructor; unfold safe; lia.
  - right. now left.
Defined.

(** X20. On a directory of plain versions the entry that the earlier
    revision returns is a maximum: no entry that is not above the
    normalized version is above it. *)
Theorem earlier_result_maximum (versionString : string) (versions : list string)
    (m : string) :
  Forall (fun v => is_plain_version v = true) versions ->
  Earlier.getClosestProtoVersion versionString versions = Returned (Some m) ->
  exists x nv,
    parse m = Some x
    /\ parse (fst (Earlier.normalize versionString)) = Some nv
    /\ Forall (fun c => forall y, parse c = Some y -> lte y nv = true ->
                                  lte y x = true) versions.
Proof.
  intros Hpl.
  unfold Earlier.getClosestProtoVersion, maxSatisfying_le, Range_le.
  destruct (parse (fst (Earlier.normalize versionString))) as [nv|].
  - rewrite maxLoop_by. intros H.
    destruct (maxLoopBy_member _ _ _ _ H) as [(x & Hin & Hx & Ht)|[x0 Hx0]];
      [|discriminate].
    exists x, nv. repeat split; try assumption.
    now destruct (maxLoopBy_max _ _ None m x Hpl ltac:(discriminate) H Hx)
      as (_ & Hall & _).
  - destruct versions; discriminate.
Qed.

Lemma earlier_result_maximum_witness :
  exists x nv,
    parse "v0.5.1+3" = Some x
    /\ parse (fst (Earlier.normalize "0.5.1")) = Some nv
    /\ Forall (fun c => forall y, parse c = Some y -> lte y nv = true ->
                                  lte y x = true)
         ["0.5.0"; "v0.5.1+3"; "0.6.0"].
Proof.
  apply (earlier_result_maximum "0.5.1" ["0.5.0"; "v0.5.1+3"; "0.6.0"] "v0.5.1+3").
  - repeat constructor.
  - vm_compute. reflexivity.
Defined.

(** ** The call on any version string, the range grammar left open *)

Lemma WithRange_maxSatisfying_returns (other : WithRange.range_oracle)
    (versions : list string) (version : string) :
  Forall (fun v => is_version v = true) versions ->
  exists r, WithRange.maxSatisfying_le other versions version = Returned r.
Proof.
  intros Hall. unfold WithRange.maxSatisfying_le.
  destruct (parse version) as [sv|].
  - apply maxLoop_returns, Hall.
  - destruct (other ("<= " ++ version)) as [test|].
    + apply maxLoopBy_returns, Hall.
    + now exists None.
Qed.

Lemma small_builds_filter (f : string -> bool) (versions : list string) :
  WithRange.small_builds versions = true ->
  WithRange.small_builds (filter f versions) = true.
Proof.
  unfold WithRange.small_builds.
  induction versions as [|v l IH]; simpl; [reflexivity|].
  intros H. apply andb_true_iff in H as [Hv Hl].
  destruct (f v); simpl; [rewrite Hv|]; now apply IH.
Qed.

(** The build numbers of such entries: not a number where there is no
    suffix, an integer below 2^53 otherwise. *)
Lemma builds_of_small (l : list string) :
  WithRange.small_builds l = true ->
  exists builds,
    builds_of l = Returned builds
    /\ Forall (fun b => match b with NaN => True | Num z => safe z end) builds.
Proof.
  unfold WithRange.small_builds.
  induction l as [|v l IH]; cbn [forallb builds_of].
  - intros _. exists []. now split.
  - intros H. apply andb_true_iff in H as [Hv Hl].
    destruct (IH Hl) as (builds & Eb & Hb). rewrite Eb.
    unfold build_of, Number_of_string.
    destruct (nth_error (split "+" v) 1) as [s|]; cbn [bind].
    + apply andb_true_iff in Hv as [Hn Hlt]. rewrite Hn. cbn [bind].
      eexists. split; [reflexivity|]. constructor; [|exact Hb].
      unfold Number_digits. apply N.ltb_lt in Hlt.
      rewrite (round53_small _ Hlt). unfold safe. lia.
    + eexists. split; [reflexivity|]. constructor; [exact I|exact Hb].
Qed.

(** The refinement returns on such a catalog, with the build that
    [normalize] records. *)
Lemma refine_returns (version : string) (p : option SemVer)
    (versions : list string) (match_ : option string) :
  (forall p', p = Some p' -> build p' = [] \/ exists x, build p' = [BNum x]) ->
  WithRange.small_builds versions = true ->
  exists r, refine version p versions match_ = Returned r.
Proof.
  intros Hp Hs. destruct p as [p|]; [|now exists match_].
  destruct (Hp p eq_refl) as [E|[x E]]; unfold refine; rewrite E.
  - now exists match_.
  - destruct (builds_of_small _ (small_builds_filter
                (fun v => startsWith v (version ++ "+")) versions Hs))
      as (builds & -> & Hb).
    cbn [bind]. destruct builds as [|b bs]; cbn [bind positive_match].
    + now exists match_.
    + cbn [array_number bind].
      pose proof (closestLower_pick (b :: bs) x) as Hc.
      destruct (closestLower (b :: bs) x) as [[|z]|]; cbn [positive_match];
        try (now exists match_).
      destruct (0 <? z)%Z; [|now exists match_].
      destruct Hc as [Hin _]. rewrite Forall_forall in Hb.
      pose proof (Hb _ Hin) as Hz. cbn in Hz.
      rewrite (Number_toString_safe z Hz). eauto.
Qed.

Lemma normalize_build_shape (versionString : string) (p : SemVer) :
  n_parse (normalize versionString) = Some p ->
  build p = [] \/ exists x, build p = [BNum x].
Proof.
  intros Hp. destruct (build p) as [|b bs] eqn:E; [now left|right].
  destruct (build_recorded versionString p b bs Hp E) as (_ & _ & [x Hx] & _).
  rewrite E in Hx. now exists x.
Qed.

Lemma closest_returns (other : WithRange.range_oracle)
    (versionString : string) (versions : list string) :
  Forall (fun v => is_version v = true) versions ->
  no_build (n_parse (normalize versionString))
  \/ WithRange.small_builds versions = true ->
  exists r,
    WithRange.getClosestProtoVersion other versionString versions = Returned r.
Proof.
  intros Hall Hb. unfold WithRange.getClosestProtoVersion, WithRange.select.
  destruct (filteredVersions_map versions Hall) as [-> Hf]. cbn [bind].
  destruct (WithRange_maxSatisfying_returns other _
              (n_version (normalize versionString)) Hf) as [match_ ->].
  cbn [bind]. destruct Hb as [Hb|Hb].
  - rewrite (refine_no_build _ _ _ _ Hb). eauto.
  - apply refine_returns; [|exact Hb].
    intros p' Hp'. exact (normalize_build_shape _ _ Hp').
Qed.

Lemma forallb_is_version (versions : list string) :
  forallb is_version versions = true ->
  Forall (fun v => is_version v = true) versions.
Proof. intros H. apply Forall_forall. now apply forallb_forall. Qed.



(** ** The comparison of the package and standard precedence *)

(** Rounding to a double does not bring a number below [MAX_SAFE_INTEGER]. *)
Lemma round53_large (n : N) :
  (MAX_SAFE_INTEGER <= n)%N -> (MAX_SAFE_INTEGER <= round53 n)%N.
Proof.
  unfold MAX_SAFE_INTEGER. intros H. unfold round53.
  destruct (N.ltb_spec n (2 ^ 53)) as [Hlt|Hge]; [exact H|].
  set (e := (N.log2 n - 52)%N).
  set (q := N.shiftr n e).
  assert (Hpos : (0 < n)%N).
  { apply N.lt_le_trans with (2 := Hge). reflexivity. }
  assert (Hlog : (53 <= N.log2 n)%N).
  { apply N.log2_le_pow2; assumption. }
  assert (Hq : (2 ^ 52 <= q)%N).
  { unfold q. rewrite N.shiftr_div_pow2.
    destruct (N.log2_spec n Hpos) as [Hlo _].
    assert (E : (2 ^ N.log2 n = 2 ^ 52 * 2 ^ e)%N).
    { rewrite <- N.pow_add_r. f_equal. unfold e. lia. }
    rewrite E in Hlo.
    apply N.div_le_lower_bound; [apply N.pow_nonzero; discriminate|].
    now rewrite N.mul_comm. }
  assert (He : (2 ^ 1 <= 2 ^ e)%N).
  { apply N.pow_le_mono_r; [discriminate|]. unfold e. lia. }
  set (q' := if (n - N.shiftl q e <? N.shiftl 1 (e - 1))%N then q
             else if (N.shiftl 1 (e - 1) <? n - N.shiftl q e)%N then (q + 1)%N
             else if N.even q then q else (q + 1)%N).
  assert (Hq' : (q <= q')%N).
  { unfold q'.
    destruct (n - N.shiftl q e <? N.shiftl 1 (e - 1))%N; [lia|].
    destruct (N.shiftl 1 (e - 1) <? n - N.shiftl q e)%N; [lia|].
    destruct (N.even q); lia. }
  rewrite N.shiftl_mul_pow2.
  change (2 ^ 52)%N with 4503599627370496%N in Hq.
  change (2 ^ 1)%N with 2%N in He.
  nia.
Qed.

(** On plain entries the standard order is the one of [ident_order]. *)
Lemma std_ident_order_plain (x y : ident) :
  plain_ident x = true -> plain_ident y = true ->
  std_ident_order x y = ident_order x y.
Proof.
  destruct x as [n|s], y as [m|t]; unfold std_ident_order; simpl;
    intros Hx Hy; try apply negb_true_iff in Hx; try apply negb_true_iff in Hy;
    try rewrite Hx; try rewrite Hy; reflexivity.
Qed.

(** One step of [comparePre] follows standard precedence when one of the
    two entries is plain. *)
Lemma ident_step_std (x y : ident) :
  made_ident x = true -> made_ident y = true ->
  plain_ident x = true \/ plain_ident y = true ->
  (if ident_same x y then Eq else compareIdentifiers x y) = std_ident_order x y
  /\ (ident_same x y = true <-> std_ident_order x y = Eq).
Proof.
  intros Mx My Hp.
  destruct (plain_ident x) eqn:Px, (plain_ident y) eqn:Py.
  - rewrite std_ident_order_plain by assumption. now apply ident_step.
  - destruct y as [m|t]; [discriminate|]. simpl in Py, My.
    apply negb_false_iff in Py. rewrite Py in My. simpl in My.
    apply N.leb_le in My. pose proof (round53_large _ My) as Hr.
    destruct x as [n|s]; simpl in Px, Mx.
    + apply N.ltb_lt in Mx.
      unfold compareIdentifiers, std_ident_order. simpl. rewrite Py. simpl.
      assert (E1 : (n ?= round53 (digits_value t))%N = Lt)
        by (apply N.compare_lt_iff; lia).
      assert (E2 : (n ?= digits_value t)%N = Lt)
        by (apply N.compare_lt_iff; lia).
      rewrite E1, E2. split; [reflexivity|]. split; discriminate.
    + apply negb_true_iff in Px.
      assert (Hne : String.eqb s t = false).
      { apply String.eqb_neq. intros ->. congruence. }
      unfold compareIdentifiers, std_ident_order. simpl.
      rewrite Px, Py, Hne. simpl. split; [reflexivity|]. split; discriminate.
  - destruct x as [n|s]; [discriminate|]. simpl in Px, Mx.
    apply negb_false_iff in Px. rewrite Px in Mx. simpl in Mx.
    apply N.leb_le in Mx. pose proof (round53_large _ Mx) as Hr.
    destruct y as [m|t]; simpl in Py, My.
    + apply N.ltb_lt in My.
      unfold compareIdentifiers, std_ident_order. simpl. rewrite Px. simpl.
      assert (E1 : (round53 (digits_value s) ?= m)%N = Gt)
        by (apply N.compare_gt_iff; lia).
      assert (E2 : (digits_value s ?= m)%N = Gt)
        by (apply N.compare_gt_iff; lia).
      rewrite E1, E2. split; [reflexivity|]. split; discriminate.
    + apply negb_true_iff in Py.
      assert (Hne : String.eqb s t = false).
      { apply String.eqb_neq. intros ->. congruence. }
      unfold compareIdentifiers, std_ident_order. simpl.
      rewrite Px, Py, Hne. simpl. split; [reflexivity|]. split; discriminate.
  - destruct Hp; discriminate.
Qed.

Lemma comparePreLoop_std (a b : list ident) :
  forallb made_ident a = true -> forallb made_ident b = true ->
  forallb plain_ident a = true \/ forallb plain_ident b = true ->
  comparePreLoop a b = lex std_ident_order a b.
Proof.
  revert b. induction a as [|x a IH]; intros [|y b]; simpl; auto.
  intros Ma Mb Hp.
  apply andb_true_iff in Ma as [Mx Ma], Mb as [My Mb].
  assert (Hxy : plain_ident x = true \/ plain_ident y = true).
  { destruct Hp as [H|H]; apply andb_true_iff in H as [H _]; auto. }
  assert (Hab : forallb plain_ident a = true \/ forallb plain_ident b = true).
  { destruct Hp as [H|H]; apply andb_true_iff in H as [_ H]; auto. }
  destruct (ident_step_std x y Mx My Hxy) as [Hs Hiff].
  destruct (ident_same x y) eqn:E.
  - rewrite (proj1 Hiff eq_refl). now apply IH.
  - rewrite Hs. destruct (std_ident_order x y); try reflexivity.
    destruct Hiff as [_ Hi]. discriminate (Hi eq_refl).
Qed.

(** [compare] is standard precedence as soon as one of the two versions is
    plain. *)
Lemma compare_precedence (a b : SemVer) :
  made a = true -> made b = true ->
  plain a = true \/ plain b = true ->
  compare a b = precedence a b.
Proof.
  unfold made, plain. intros Ma Mb Hp.
  unfold compare, precedence, compareMain, comparePre, std_pre_order. simpl.
  destruct (major a ?= major b)%N; try reflexivity.
  destruct (minor a ?= minor b)%N; try reflexivity.
  destruct (patch a ?= patch b)%N; try reflexivity.
  destruct (prerelease a) as [|x pa] eqn:Ea, (prerelease b) as [|y pb] eqn:Eb;
    try reflexivity.
  exact (comparePreLoop_std (x :: pa) (y :: pb) Ma Mb Hp).
Qed.

Lemma lte_not_above (a b : SemVer) :
  made a = true -> made b = true ->
  plain a = true \/ plain b = true ->
  lte a b = not_above a b.
Proof.
  intros Ma Mb Hp. unfold lte, not_above. now rewrite compare_precedence.
Qed.

Lemma made_mk_ident (id : string) : made_ident (mk_ident id) = true.
Proof.
  unfold mk_ident.
  destruct (numeric id) eqn:En; simpl; [|now rewrite En].
  destruct (N.ltb_spec (digits_value id) MAX_SAFE_INTEGER) as [Hlt|Hge]; simpl.
  - now apply N.ltb_lt.
  - rewrite En. simpl. now apply N.leb_le.
Qed.

(** What [parse] gives was made by the constructor. *)
Lemma parse_made (s : string) (x : SemVer) : parse s = Some x -> made x = true.
Proof.
  intros H.
  destruct (parse_inv s x H)
    as (main & bld & core & pre & M & m & p & pres & blds & _ & _ & _ & _ & _
        & _ & _ & _ & ->).
  unfold made. simpl. apply forallb_forall. intros i Hi.
  apply in_map_iff in Hi as (id & <- & _). apply made_mk_ident.
Qed.

Lemma std_ident_order_refl (x : ident) : std_ident_order x x = Eq.
Proof.
  unfold std_ident_order. destruct (ident_value x).
  - apply N.compare_refl.
  - apply string_compare_refl.
Qed.

Lemma lex_refl {A : Type} (f : A -> A -> comparison) (l : list A) :
  (forall x, f x x = Eq) -> lex f l l = Eq.
Proof.
  intros Hf. induction l as [|x l IH]; simpl; [reflexivity|].
  now rewrite Hf.
Qed.

Lemma not_above_refl (a : SemVer) : not_above a a = true.
Proof.
  unfold not_above, precedence. simpl. rewrite !N.compare_refl.
  unfold std_pre_order.
  destruct (prerelease a) as [|x l]; [reflexivity|].
  now rewrite (lex_refl std_ident_order (x :: l) std_ident_order_refl).
Qed.

Lemma not_above_same_fields (a a' b : SemVer) :
  major a = major a' -> minor a = minor a' -> patch a = patch a' ->
  prerelease a = prerelease a' -> not_above a b = not_above a' b.
Proof.
  intros H1 H2 H3 H4. unfold not_above, precedence.
  now rewrite H1, H2, H3, H4.
Qed.

(** On an entry of a plain catalog, against any version, [lte] is standard
    precedence. *)
Lemma lte_not_above_entry (versions : list string) (c : string)
    (y nv : SemVer) (s : string) :
  Forall (fun v => is_plain_version v = true) versions ->
  In c versions -> parse c = Some y -> parse s = Some nv ->
  lte y nv = not_above y nv.
Proof.
  intros Hpl Hin Hy Hnv. apply lte_not_above.
  - exact (parse_made _ _ Hy).
  - exact (parse_made _ _ Hnv).
  - left. exact (plain_of_entry versions c y Hpl Hin Hy).
Qed.

(** ** Where the result comes from *)

(** A refined result needs a recorded build: an empty [parse.build] stands
    for 0, which no positive number is below. *)
Lemma built_has_build (p : SemVer) (val : number) (z : Z) :
  array_number (build p) = Returned val ->
  num_le (Num z) val = true -> (0 < z)%Z ->
  exists b bs, build p = b :: bs.
Proof.
  destruct (build p) as [|b bs]; [|eauto].
  simpl. intros [= <-] Hle Hz. simpl in Hle. apply Z.leb_le in Hle. lia.
Qed.

Lemma closest_sources (other : WithRange.range_oracle)
    (versionString : string) (versions : list string) (m : string) :
  WithRange.getClosestProtoVersion other versionString versions
  = Returned (Some m) ->
  (exists c y,
     In c versions /\ parse c = Some y /\ m = format y /\ m = stripped c
     /\ match parse (n_version (normalize versionString)) with
        | Some nv => lte y nv = true
        | None =>
            exists test,
              other ("<= " ++ n_version (normalize versionString)) = Some test
              /\ test (mkSemVer (major y) (minor y) (patch y) (prerelease y) [])
                 = true
        end)
  \/ exists v z p val,
       In v versions
       /\ startsWith v (n_version (normalize versionString) ++ "+") = true
       /\ build_of v = Returned (Num z) /\ (0 < z)%Z /\ safe z
       /\ n_parse (normalize versionString) = Some p
       /\ array_number (build p) = Returned val
       /\ num_le (Num z) val = true
       /\ m = n_version (normalize versionString) ++ "+" ++ decimal (Z.to_N z).
Proof.
  unfold WithRange.getClosestProtoVersion, WithRange.select. intros H.
  destruct (filteredVersions versions) as [filtered| |] eqn:Ef; cbn [bind] in H;
    try discriminate.
  destruct (filteredVersions_inv _ _ Ef) as [Hall ->].
  destruct (WithRange.maxSatisfying_le other (map stripped versions)
              (n_version (normalize versionString)))
    as [match_| |] eqn:Emax; cbn [bind] in H; try discriminate.
  destruct (refine_provenance _ _ _ _ _ H)
    as [<-|(v & z & p & val & Hv & Hs & Hb & Hz & Hsafe & Hp & Ha & Hle
            & [= ->])].
  - left. unfold WithRange.maxSatisfying_le in Emax.
    rewrite Forall_forall in Hall.
    destruct (parse (n_version (normalize versionString))) as [nv|].
    + rewrite maxLoop_by in Emax.
      destruct (maxLoopBy_member _ _ _ _ Emax)
        as [(x & Hin & Hx & Ht)|[x0 Hx0]]; [|discriminate].
      apply in_map_iff in Hin as (c & <- & Hin).
      destruct (is_version_parse c (Hall c Hin)) as [y Hy].
      destruct (parse_stripped c y Hy) as [Hf Hps].
      rewrite Hps in Hx. injection Hx as <-. rewrite lte_stripped in Ht.
      exists c, y. repeat split; assumption.
    + destruct (other ("<= " ++ n_version (normalize versionString)))
        as [test|]; [|discriminate].
      destruct (maxLoopBy_member _ _ _ _ Emax)
        as [(x & Hin & Hx & Ht)|[x0 Hx0]]; [|discriminate].
      apply in_map_iff in Hin as (c & <- & Hin).
      destruct (is_version_parse c (Hall c Hin)) as [y Hy].
      destruct (parse_stripped c y Hy) as [Hf Hps].
      rewrite Hps in Hx. injection Hx as <-.
      exists c, y. repeat split; try assumption. now exists test.
  - right. exists v, z, p, val. repeat split; try assumption; apply Hsafe.
Qed.

(** X11. A version that [getClosestProtoVersion] returns, whatever the
    version string and whatever the range grammar makes of a normalized
    text that is not a version, is either the formatted text of an entry of
    the catalog (the entry without an optional [v] and without its build,
    so possibly a text that is not in the catalog), or the normalized
    version, a plus and the build number of an entry that starts with the
    normalized version and a plus; that number is a positive integer below
    2^53, written with all its digits, and it is not above the recorded
    build. *)
Theorem closest_result_provenance (other : WithRange.range_oracle)
    (versionString : string) (versions : list string) (m : string) :
  WithRange.getClosestProtoVersion other versionString versions
  = Returned (Some m) ->
  (exists c y, In c versions /\ parse c = Some y /\ m = format y
               /\ m = stripped c)
  \/ exists v z p val,
       In v versions
       /\ startsWith v (n_version (normalize versionString) ++ "+") = true
       /\ build_of v = Returned (Num z) /\ (0 < z)%Z /\ safe z
       /\ n_parse (normalize versionString) = Some p
       /\ array_number (build p) = Returned val
       /\ num_le (Num z) val = true
       /\ m = n_version (normalize versionString) ++ "+" ++ decimal (Z.to_N z).
Proof.
  intros H.
  destruct (closest_sources other versionString versions m H)
    as [(c & y & Hin & Hy & Hf & Hs & _)|Hr].
  - left. now exists c, y.
  - right. exact Hr.
Qed.

Lemma closest_result_provenance_witness :
  (exists c y, In c ["0.5.1"; "0.5.2+0"; "0.5.2+7"] /\ parse c = Some y
               /\ "0.5.2+7" = format y /\ "0.5.2+7" = stripped c)
  \/ exists v z p val,
       In v ["0.5.1"; "0.5.2+0"; "0.5.2+7"]
       /\ startsWith v
            (n_version (normalize "0.5.2-beta commit=v0.5.2-beta-8-gabcdef") ++ "+")
          = true
       /\ build_of v = Returned (Num z) /\ (0 < z)%Z /\ safe z
       /\ n_parse (normalize "0.5.2-beta commit=v0.5.2-beta-8-gabcdef") = Some p
       /\ array_number (build p) = Returned val
       /\ num_le (Num z) val = true
       /\ "0.5.2+7"
          = n_version (normalize "0.5.2-beta commit=v0.5.2-beta-8-gabcdef")
            ++ "+" ++ decimal (Z.to_N z).
Proof.
  apply (closest_result_provenance (fun _ => None)
           "0.5.2-beta commit=v0.5.2-beta-8-gabcdef"
           ["0.5.1"; "0.5.2+0"; "0.5.2+7"] "0.5.2+7").
  vm_compute. reflexivity.
Defined.

(** ** When the call returns and when it throws *)

Lemma not_all_exists (f : string -> bool) (l : list string) :
  forallb f l = false -> existsb (fun v => negb (f v)) l = true.
Proof.
  induction l as [|v l IH]; simpl; [discriminate|].
  destruct (f v); simpl; [exact IH|reflexivity].
Qed.



(** X18. Whatever the version string and whatever the range grammar makes
    of a text that is not a version: when an entry of the catalog is not a
    version for [semver.parse] the call throws the [TypeError] of line 230;
    when every entry is a version the call returns a result, provided no
    build is recorded or the build suffixes of the catalog are digit
    strings below 2^53. *)
Theorem closest_throws_iff (other : WithRange.range_oracle)
    (versionString : string) (versions : list string) :
  (forallb is_version versions = false ->
   WithRange.getClosestProtoVersion other versionString versions
   = Thrown TypeError)
  /\ (forallb is_version versions = true ->
      no_build (n_parse (normalize versionString))
      \/ WithRange.small_builds versions = true ->
      exists r,
        WithRange.getClosestProtoVersion other versionString versions
        = Returned r).
Proof.
  split.
  - intros E. unfold WithRange.getClosestProtoVersion, WithRange.select.
    now rewrite (filteredVersions_malformed _ (not_all_exists _ _ E)).
  - intros E. apply closest_returns. now apply forallb_is_version.
Qed.

Lemma closest_throws_iff_witness :
  WithRange.getClosestProtoVersion (fun _ => None) "garbage" ["0.5.0"; "README"]
  = Thrown TypeError
  /\ exists r,
       WithRange.getClosestProtoVersion (fun _ => None) "garbage"
         ["0.5.0"; "0.5.2+x"]
       = Returned r.
Proof.
  split.
  - exact (proj1 (closest_throws_iff (fun _ => None) "garbage"
                    ["0.5.0"; "README"]) eq_refl).
  - exact (proj2 (closest_throws_iff (fun _ => None) "garbage"
                    ["0.5.0"; "0.5.2+x"]) eq_refl (or_introl I)).
Defined.

(** ** The result against the normalized version, in standard precedence *)

(** C1 as stated fails: [compareIdentifiers] turns two identifiers of
    digits into doubles, and from 2^53 on two of them can round to the same
    double. From [1.0.0-9007199254740992] (the first token, as no commit
    token follows) the entry [1.0.0-9007199254740993] compares equal, is
    kept as the maximum, and is returned, although it is above the
    normalized version in standard precedence. *)
Lemma closest_above_normalized :
  getClosestProtoVersion "1.0.0-9007199254740992"
    ["1.0.0-9007199254740993"; "1.0.0-5"]
  = Returned (Some "1.0.0-9007199254740993")
  /\ parse (n_version (normalize "1.0.0-9007199254740992"))
     = Some (mkSemVer 1 0 0 [IdStr "9007199254740992"] [])
  /\ parse (semver_portion "1.0.0-9007199254740993")
     = Some (mkSemVer 1 0 0 [IdStr "9007199254740993"] [])
  /\ precedence (mkSemVer 1 0 0 [IdStr "9007199254740993"] [])
                (mkSemVer 1 0 0 [IdStr "9007199254740992"] []) = Gt
  /\ not_above (mkSemVer 1 0 0 [IdStr "9007199254740993"] [])
               (mkSemVer 1 0 0 [IdStr "9007199254740992"] []) = false.
Proof. repeat split; vm_compute; reflexivity. Qed.

(** C1, amended. Whatever the range grammar makes of a text that is not a
    version, when the call returns a version [m]:
    if the normalized version is a version [nv], and it or every entry of
    the catalog is plain (no prerelease identifier of digits from
    [MAX_SAFE_INTEGER] on), the text of [m] in front of its build suffix is
    a version that is not above [nv] in standard precedence;
    if the normalized text is not a version, [m] is the formatted text of
    an entry that the range made of that text accepts. *)
Theorem closest_not_above_normalized (other : WithRange.range_oracle)
    (versionString : string) (versions : list string) (m : string) :
  WithRange.getClosestProtoVersion other versionString versions
  = Returned (Some m) ->
  (forall nv,
     parse (n_version (normalize versionString)) = Some nv ->
     plain nv = true \/ Forall (fun v => is_plain_version v = true) versions ->
     exists mv, parse (semver_portion m) = Some mv /\ not_above mv nv = true)
  /\ (parse (n_version (normalize versionString)) = None ->
      exists test x,
        other ("<= " ++ n_version (normalize versionString)) = Some test
        /\ In m (map stripped versions)
        /\ parse m = Some x /\ test x = true).
Proof.
  intros H.
  destruct (closest_sources other versionString versions m H)
    as [(c & y & Hin & Hy & Hf & Hs & Hacc)
       |(v & z & p & val & Hv & Hst & Hb & Hz & Hsafe & Hp & Ha & Hle & Hm)].
  - pose proof (parse_format_parsed c y Hy) as Hpm. rewrite <- Hf in Hpm.
    split.
    + intros nv Hnv Hpl. rewrite Hnv in Hacc.
      eexists. split; [exact (parse_semver_portion _ _ Hpm)|]. cbn.
      rewrite (not_above_same_fields _ y nv) by reflexivity.
      rewrite <- lte_not_above; [exact Hacc|exact (parse_made _ _ Hy)
                                |exact (parse_made _ _ Hnv)|].
      destruct Hpl as [Hpl|Hpl]; [now right|left].
      exact (plain_of_entry versions c y Hpl Hin Hy).
    + intros Hnone. rewrite Hnone in Hacc. destruct Hacc as (test & Ho & Ht).
      exists test. eexists. split; [exact Ho|].
      split; [rewrite Hs; now apply in_map|].
      split; [exact Hpm|exact Ht].
  - destruct (built_has_build p val z Ha Hle Hz) as (b & bs & Hbuild).
    split.
    + intros nv Hnv _. exists nv. split; [|apply not_above_refl].
      rewrite Hm. unfold semver_portion.
      change (n_version (normalize versionString) ++ "+" ++ decimal (Z.to_N z))
        with (n_version (normalize versionString)
              ++ String "+" (decimal (Z.to_N z))).
      rewrite (cut_app_sep "+" _ _ (normalize_build_no_plus _ _ _ _ Hp Hbuild)).
      exact Hnv.
    + intros Hnone.
      destruct (build_recorded _ _ _ _ Hp Hbuild) as (_ & _ & _ & _ & Hparse).
      rewrite Hparse in Hnone. discriminate.
Qed.

Lemma closest_not_above_normalized_witness :
  exists mv, parse (semver_portion "0.5.2+7") = Some mv
             /\ not_above mv (mkSemVer 0 5 2 [] []) = true.
Proof.
  refine (proj1 (closest_not_above_normalized (fun _ => None)
                   "0.5.2-beta commit=v0.5.2-beta-8-gabcdef"
                   ["0.5.1"; "0.5.2+1"; "0.5.2+3"; "0.5.2+7"; "0.5.2+10"; "0.5.3"]
                   "0.5.2+7" _)
            (mkSemVer 0 5 2 [] []) _ (or_introl eq_refl));
    vm_compute; reflexivity.
Defined.

(** X2. When the normalized version is a version and the entries of the
    catalog are plain versions, the primary search returns the formatted
    text of an entry that is not above the normalized version in standard
    precedence; it returns no match exactly when every entry is above it. *)
Theorem stepA_member (st : normalized) (versions : list string) (nv : SemVer) :
  parse (n_version st) = Some nv ->
  Forall (fun v => is_plain_version v = true) versions ->
  match stepA st versions with
  | Returned None =>
      Forall (fun c => forall y, parse c = Some y -> not_above y nv = false)
        versions
  | Returned (Some m) =>
      exists c y, In c versions /\ parse c = Some y /\ m = format y
                  /\ not_above y nv = true
  | _ => False
  end.
Proof.
  intros Hnv Hpl.
  pose proof (stepA_result st versions nv Hnv (plain_is_version _ Hpl)) as H.
  destruct (stepA st versions) as [[m|]| |]; try exact H.
  - destruct H as (c & y & Hin & Hy & Hm & Hle).
    exists c, y. repeat split; try assumption.
    now rewrite <- (lte_not_above_entry versions c y nv _ Hpl Hin Hy Hnv).
  - rewrite Forall_forall in H. apply Forall_forall. intros c Hin y Hy.
    rewrite <- (lte_not_above_entry versions c y nv _ Hpl Hin Hy Hnv).
    exact (H c Hin y Hy).
Qed.

Lemma stepA_member_witness :
  exists c y, In c ["0.5.0"; "v0.5.1+3"; "0.6.0"] /\ parse c = Some y
              /\ "0.5.1" = format y /\ not_above y (mkSemVer 0 5 1 [] []) = true.
Proof.
  exact (stepA_member (mkNormalized "0.5.1" None (Some TypeError))
           ["0.5.0"; "v0.5.1+3"; "0.6.0"] (mkSemVer 0 5 1 [] [])
           eq_refl ltac:(repeat constructor)).
Defined.

(** X13. On a directory of plain versions and from a normalized version
    that is a version, what the earlier revision returns is an entry of the
    directory as it is, a version that is not above the normalized one in
    standard precedence. *)
Theorem earlier_result_member (versionString : string) (versions : list string)
    (m : string) (nv : SemVer) :
  Forall (fun v => is_plain_version v = true) versions ->
  parse (fst (Earlier.normalize versionString)) = Some nv ->
  Earlier.getClosestProtoVersion versionString versions = Returned (Some m) ->
  In m versions
  /\ exists x, parse m = Some x /\ not_above x nv = true.
Proof.
  intros Hpl Hnv.
  unfold Earlier.getClosestProtoVersion, maxSatisfying_le, Range_le.
  rewrite Hnv. rewrite maxLoop_by. intros H.
  destruct (maxLoopBy_member _ _ _ _ H) as [(x & Hin & Hx & Ht)|[x0 Hx0]];
    [|discriminate].
  split; [exact Hin|]. exists x. split; [exact Hx|].
  now rewrite <- (lte_not_above_entry versions m x nv _ Hpl Hin Hx Hnv).
Qed.

Lemma earlier_result_member_witness :
  In "v0.5.1+3" ["0.5.0"; "v0.5.1+3"; "0.6.0"]
  /\ exists x, parse "v0.5.1+3" = Some x
               /\ not_above x (mkSemVer 0 5 1 [] []) = true.
Proof.
  apply (earlier_result_member "0.5.1" ["0.5.0"; "v0.5.1+3"; "0.6.0"] "v0.5.1+3").
  - repeat constructor.
  - vm_compute. reflexivity.
  - vm_compute. reflexivity.
Defined.

(** ** The closest build beyond 2^53 *)

(** C6 as stated fails: the distances are doubles. For the target 2^60 the
    two distances to 1 and to 2 round to the same double, the strict
    comparison of line 260 keeps the earlier entry, and the build chosen is
    1 where 2 is the maximum of the builds not above the target; with the
    catalog in the other order the same call gives 2. *)
Lemma closestLower_not_max :
  closestLower [Num 1; Num 2] (Num 1152921504606846976) = Some (Num 1)
  /\ num_le (Num 2) (Num 1152921504606846976) = true
  /\ closestLower [Num 2; Num 1] (Num 1152921504606846976) = Some (Num 2)
  /\ getClosestProtoVersion
       "0.5.2-beta commit=v0.5.2-beta-1152921504606846976-gabcdef"
       ["0.5.2+1"; "0.5.2+2"]
     = Returned (Some "0.5.2+1")
  /\ getClosestProtoVersion
       "0.5.2-beta commit=v0.5.2-beta-1152921504606846976-gabcdef"
       ["0.5.2+2"; "0.5.2+1"]
     = Returned (Some "0.5.2+2").
Proof. repeat split; vm_compute; reflexivity. Qed.

(** ** The two models of the call *)

(** Where the model with the range grammar left out gives an outcome, the
    model with the grammar as a parameter gives the same, whatever the
    grammar. *)
Lemma WithRange_agrees (other : WithRange.range_oracle) (st : normalized)
    (versions : list string) :
  match select st versions with
  | Unmodelled => True
  | r => WithRange.select other st versions = r
  end.
Proof.
  unfold WithRange.select, select.
  destruct (filteredVersions versions) as [filtered| |]; cbn [bind];
    [|reflexivity|exact I].
  unfold WithRange.maxSatisfying_le, maxSatisfying_le, Range_le.
  destruct (parse (n_version st)) as [nv|].
  - destruct (maxLoop nv filtered None) as [match_| |]; cbn [bind];
      [|reflexivity|exact I].
    now destruct (refine (n_version st) (n_parse st) versions match_).
  - destruct filtered as [|f fs]; [|exact I].
    assert (E : match other ("<= " ++ n_version st) with
                | Some test => maxLoopBy test [] None
                | None => Returned None
                end = Returned None)
      by now destruct (other ("<= " ++ n_version st)).
    rewrite E. cbn [bind].
    now destruct (refine (n_version st) (n_parse st) versions None).
Qed.
